(** * Werewolf data pipe: speaker-attributed transcript consolidation

    A shallow embedding of [werewolf_datapipe/step_1_one_click_process.py]:
    the run-length merger, the short-segment corrector, the speaker
    identifier, the voiceprint selection, the time-marker parser and the
    timeline assembly, followed by the properties proved about them.

    Conventions.
    - Python [int] is [Z]; [//] and [%] are [Z.div] and [Z.modulo] (both
      floor, as in Python for a positive divisor).
    - Python [str] is [string] (a byte string: names such as the UNKNOWN
      label are their UTF-8 bytes).
    - A Python [float] that the code computes with (the corrector's
      threshold, the frame count of a time marker, the frame rate) is an
      IEEE 754 binary64 number, a primitive [float]: its arithmetic rounds
      to nearest, ties to even, as the machine's does, and [float(s)] is
      the float nearest to the numeral [s]. The similarities of the
      speaker identifier, which the code only compares, are modelled by
      the rationals they denote ([Q]).
    - A [dict] with insertion order is an association list with unique
      keys.
    - The segment dictionaries are records; a function that reads a
      dictionary through [.get] accepts every record type that offers the
      keys it reads (class [SegmentDict]). *)

From Stdlib Require Import List ZArith String Ascii Bool Lia QArith Qround.
From Stdlib Require Import DecimalString Sorted DecimalPos DecimalZ Permutation.
From Stdlib Require Import PrimFloat SpecFloat FloatOps.
Import ListNotations.

Local Open Scope string_scope.
Local Open Scope list_scope.
Local Open Scope Z_scope.

(* ===================================================================== *)
(** * Part I: definitions *)
(* ===================================================================== *)

(** ** Labels *)

(** The label of an unidentified speaker and the judge's name. *)
Definition UNKNOWN : string := "未知".
Definition JUDGE : string := "法官".

(** Truth value of a Python string: the empty string is false. *)
Definition truthy (s : string) : bool := negb (s =? "")%string.

(** Truth value of [None]-or-string. *)
Definition truthy_opt (o : option string) : bool :=
  match o with
  | Some s => truthy s
  | None => false
  end.

(** ** [minsec] *)

(** [f"{z:02d}"]: at least two characters, zero padded; a sign counts as
    one character. *)
Definition fmt_02d (z : Z) : string :=
  let digits := NilZero.string_of_int (Z.to_int z) in
  if (0 <=? z) && (z <? 10) then ("0" ++ digits)%string else digits.

Definition minsec (ms : Z) : string :=
  let total := ms / 1000 in
  let mm := total / 60 in
  let ss := total mod 60 in
  (fmt_02d mm ++ ":" ++ fmt_02d ss)%string.

(** ** Segment records *)

(** An entry of [processed_segments] (an identified segment). *)
Record IdentifiedSegment := mkIdentified {
  id_start_ms : Z;
  id_end_ms : Z;
  id_duration_ms : Z;
  id_speaker : string;
  id_display_speaker : string;
  id_text : string
}.

(** An entry of [merged_segments]. *)
Record MergedSegment := mkMerged {
  speaker : string;
  display_speaker : string;
  start_ms : Z;
  end_ms : Z;
  start : string;
  end_ : string;
  text : string;
  duration_ms : Z
}.

(** The keys [merge_consecutive_same_speaker] reads with [seg.get]. *)
Class SegmentDict (A : Type) := {
  get_speaker : A -> string;
  get_display_speaker : A -> string;
  get_start_ms : A -> Z;
  get_end_ms : A -> Z;
  get_text : A -> string
}.

#[export] Instance IdentifiedSegment_dict : SegmentDict IdentifiedSegment := {|
  get_speaker := id_speaker;
  get_display_speaker := id_display_speaker;
  get_start_ms := id_start_ms;
  get_end_ms := id_end_ms;
  get_text := id_text
|}.

#[export] Instance MergedSegment_dict : SegmentDict MergedSegment := {|
  get_speaker := speaker;
  get_display_speaker := display_speaker;
  get_start_ms := start_ms;
  get_end_ms := end_ms;
  get_text := text
|}.

(** ** The run-length merger: [merge_consecutive_same_speaker] *)

(** The loop variables [current_*]. In the source [current_speaker is
    None] marks "no run open yet"; the speaker of a segment is a string
    (a segment whose speaker is [None] is outside this model), so the open
    run is an [option]. *)
Record Run := mkRun {
  current_speaker : string;
  current_display_speaker : string;
  current_start : Z;
  current_end : Z;
  current_texts : list string
}.

Record MergeState := mkMergeState {
  current : option Run;
  merged : list MergedSegment
}.

(** [[text] if text else []] *)
Definition text_list (t : string) : list string :=
  if truthy t then [t] else [].

(** The dictionary appended to [merged] for a finished run. *)
Definition emit (r : Run) : MergedSegment := {|
  speaker := current_speaker r;
  display_speaker := current_display_speaker r;
  start_ms := current_start r;
  end_ms := current_end r;
  start := minsec (current_start r);
  end_ := minsec (current_end r);
  text := String.concat "" (current_texts r);
  duration_ms := current_end r - current_start r
|}.

Section Merger.
Context {A : Type} `{SegmentDict A}.

(** Open a run at [seg] (first and third branch of the loop body). *)
Definition open_run (seg : A) : Run := {|
  current_speaker := get_speaker seg;
  current_display_speaker := get_display_speaker seg;
  current_start := get_start_ms seg;
  current_end := get_end_ms seg;
  current_texts := text_list (get_text seg)
|}.

(** Extend the open run by [seg] (second branch). *)
Definition extend_run (r : Run) (seg : A) : Run := {|
  current_speaker := current_speaker r;
  current_display_speaker := current_display_speaker r;
  current_start := current_start r;
  current_end := get_end_ms seg;
  current_texts := current_texts r ++ text_list (get_text seg)
|}.

(** One iteration of [for seg in segments]. *)
Definition merge_step (st : MergeState) (seg : A) : MergeState :=
  match current st with
  | None => {| current := Some (open_run seg); merged := merged st |}
  | Some r =>
      if (get_speaker seg =? current_speaker r)%string
      then {| current := Some (extend_run r seg); merged := merged st |}
      else {| current := Some (open_run seg);
              merged := merged st ++ [emit r] |}
  end.

(** The code after the loop: the open run, if any, is appended. *)
Definition finish (st : MergeState) : list MergedSegment :=
  match current st with
  | Some r => merged st ++ [emit r]
  | None => merged st
  end.

Definition merge_consecutive_same_speaker (segments : list A)
  : list MergedSegment :=
  match segments with
  | [] => []
  | _ =>
      finish (fold_left merge_step segments
                {| current := None; merged := [] |})
  end.
End Merger.

(** *** Vocabulary of the merger's contract *)

Section MergerContract.
Context {A : Type} `{SegmentDict A}.

(** The loop from the point where a run [r] is open and [l] is still to
    be read, as a recursive function. *)
Fixpoint flush (r : Run) (l : list A) : list MergedSegment :=
  match l with
  | [] => [emit r]
  | seg :: l' =>
      if (get_speaker seg =? current_speaker r)%string
      then flush (extend_run r seg) l'
      else emit r :: flush (open_run seg) l'
  end.




End MergerContract.


Fixpoint adjacent_differ (l : list MergedSegment) : Prop :=
  match l with
  | a :: (b :: _) as t => speaker a <> speaker b /\ adjacent_differ t
  | _ => True
  end.

(** The derived keys of a merged dictionary agree with its times. *)
Definition well_formed (m : MergedSegment) : Prop :=
  start m = minsec (start_ms m) /\
  end_ m = minsec (end_ms m) /\
  duration_ms m = end_ms m - start_ms m.

(** ** Exceptions *)

(** The exceptions the code raises or lets through. *)
Inductive exception :=
| KeyError (key : string)
| RuntimeError (message : string)
| ValueError
| OverflowError
| ZeroDivisionError.

Inductive outcome (A : Type) :=
| Returns (value : A)
| Raises (e : exception).
Arguments Returns {A} value.
Arguments Raises {A} e.

(** ** Python floats *)

(** The float nearest to [n / d], with the sign [s] ([true] for minus),
    for [0 <= n] and [0 < d]: the quotient is computed to the precision
    of binary64 with the position of the remainder, and rounded to
    nearest, ties to even; a quotient too large for binary64 is an
    infinity. *)
Definition nearest_float (s : bool) (n d : Z) : float :=
  match n with
  | Z0 => SF2Prim (S754_zero s)
  | _ =>
      let '(m, e, l) :=
        SFdiv_core_binary prec emax (Z.abs n) 0 (Z.abs d) 0 in
      SF2Prim (binary_round_aux prec emax s m e l)
  end.

(** The float nearest to [(-1)^s * m * 10^e]: the value of a decimal
    numeral with the digits [m] and the exponent [e]. *)
Definition decimal_float (s : bool) (m e : Z) : float :=
  if 0 <=? e then nearest_float s (m * 10 ^ e) 1
  else nearest_float s m (10 ^ (- e)).

(** [int(x)] for a float [x]: truncation toward zero; an infinity raises
    [OverflowError] and nan raises [ValueError]. A finite float is
    [m * 2^e] with its sign; shifting by a negative [e] drops the
    fraction. *)
Definition int_of_float (x : float) : outcome Z :=
  match Prim2SF x with
  | S754_zero _ => Returns 0
  | S754_finite s m e =>
      let a := Z.shiftl (Zpos m) e in
      Returns (if s then - a else a)
  | S754_infinity _ => Raises OverflowError
  | S754_nan => Raises ValueError
  end.

(** ** The short-segment corrector: [filter_short_speaker_segments] *)

(** The arguments [min_duration_ms] at which [int(min_duration_ms * 1000)]
    returns: the floats whose product with 1000 is finite. At any other
    float (an infinity, nan, or a float above 1.797e305 in magnitude) the
    conversion raises, and the corrector with it when it is given two or
    more segments. *)
Record Seconds := mkSeconds {
  seconds_value : float;
  seconds_finite : is_finite (seconds_value * 1000) = true
}.

(** [int(min_duration_ms * 1000)]: the argument, whatever its name says,
    is a number of seconds ([process_video] passes
    [min_speaker_duration]); the threshold is in milliseconds. The
    product is rounded to binary64 before it is truncated. On [Seconds]
    the conversion returns, so the second branch is never taken (lemma
    [min_duration_threshold_int]). *)
Definition min_duration_threshold (min_duration_ms : Seconds) : Z :=
  match int_of_float (seconds_value min_duration_ms * 1000) with
  | Returns threshold => threshold
  | Raises _ => 0
  end.

(** [segment = segment.copy(); segment['speaker'] = sp] *)
Definition set_speaker (segment : MergedSegment) (sp : string)
  : MergedSegment := {|
  speaker := sp;
  display_speaker := display_speaker segment;
  start_ms := start_ms segment;
  end_ms := end_ms segment;
  start := start segment;
  end_ := end_ segment;
  text := text segment;
  duration_ms := duration_ms segment
|}.

(** Assignment of a neighbour's speaker, which is a string wherever the
    source assigns it. *)
Definition assign_speaker (segment : MergedSegment) (sp : option string)
  : MergedSegment :=
  match sp with
  | Some s => set_speaker segment s
  | None => segment
  end.

(** [==] on values that are a string or [None]. *)
Definition opt_string_eqb (a b : option string) : bool :=
  match a, b with
  | Some x, Some y => (x =? y)%string
  | None, None => true
  | _, _ => false
  end.

Fixpoint enumerate_from {A : Type} (i : nat) (l : list A) : list (nat * A) :=
  match l with
  | [] => []
  | x :: t => (i, x) :: enumerate_from (S i) t
  end.

Definition enumerate {A : Type} (l : list A) : list (nat * A) :=
  enumerate_from 0 l.

(** The body of [for i, segment in enumerate(merged_segments)]: the value
    appended to [modified_segments]. The neighbours are read from
    [merged_segments], the list the function received. *)
Definition relabel_segment (merged_segments : list MergedSegment)
    (threshold : Z) (i : nat) (segment : MergedSegment) : MergedSegment :=
  let duration := duration_ms segment in
  let speaker_ := speaker segment in
  if (duration <? threshold) && negb (speaker_ =? UNKNOWN)%string then
    let prev_speaker :=
      if (0 <? i)%nat
      then option_map speaker (nth_error merged_segments (i - 1))
      else None in
    let next_speaker :=
      if (i <? List.length merged_segments - 1)%nat
      then option_map speaker (nth_error merged_segments (i + 1))
      else None in
    if truthy_opt prev_speaker && opt_string_eqb prev_speaker next_speaker
    then assign_speaker segment prev_speaker
    else if truthy_opt prev_speaker
    then assign_speaker segment prev_speaker
    else if truthy_opt next_speaker
    then assign_speaker segment next_speaker
    else segment
  else segment.

(** [modified_segments] after the first loop. *)
Definition relabel_pass (merged_segments : list MergedSegment)
    (threshold : Z) : list MergedSegment :=
  map (fun '(i, segment) => relabel_segment merged_segments threshold i segment)
      (enumerate merged_segments).

(** The update of [current] when [next_seg] carries its speaker. *)
Definition absorb (current_seg next_seg : MergedSegment) : MergedSegment := {|
  speaker := speaker current_seg;
  display_speaker := display_speaker current_seg;
  start_ms := start_ms current_seg;
  end_ms := end_ms next_seg;
  start := start current_seg;
  end_ := minsec (end_ms next_seg);
  text := (text current_seg ++ text next_seg)%string;
  duration_ms := end_ms next_seg - start_ms current_seg
|}.

(** One iteration of the second loop; the state is
    [(final_merged, current)]. *)
Definition remerge_step (st : list MergedSegment * MergedSegment)
    (next_seg : MergedSegment) : list MergedSegment * MergedSegment :=
  let '(final_merged, current_seg) := st in
  if (speaker current_seg =? speaker next_seg)%string
  then (final_merged, absorb current_seg next_seg)
  else (final_merged ++ [current_seg], next_seg).

(** The second half of the function: the merge of [modified_segments]. *)
Definition remerge (modified_segments : list MergedSegment)
  : list MergedSegment :=
  match modified_segments with
  | [] => []
  | first :: rest =>
      let '(final_merged, current_seg) :=
        fold_left remerge_step rest ([], first) in
      final_merged ++ [current_seg]
  end.

Definition filter_short_speaker_segments
    (merged_segments : list MergedSegment) (min_duration_ms : Seconds)
  : list MergedSegment :=
  if (List.length merged_segments <=? 1)%nat then merged_segments
  else remerge (relabel_pass merged_segments
                  (min_duration_threshold min_duration_ms)).

(** The corrector at any float: line 489 is reached with two or more
    segments only, and raises what [int] raises on an infinite product
    or on nan. On [Seconds] it returns what
    [filter_short_speaker_segments] is (lemma
    [filter_short_speaker_segments_any_finite]). *)
Definition filter_short_speaker_segments_any
    (merged_segments : list MergedSegment) (min_duration_ms : float)
  : outcome (list MergedSegment) :=
  if (List.length merged_segments <=? 1)%nat then Returns merged_segments
  else
    match int_of_float (min_duration_ms * 1000) with
    | Returns threshold =>
        Returns (remerge (relabel_pass merged_segments threshold))
    | Raises e => Raises e
    end.

(** *** Vocabulary of the corrector's contract *)

(** The second loop from the point where [current_seg] is held and [l] is
    still to be read, as a recursive function. *)
Fixpoint reflush (current_seg : MergedSegment) (l : list MergedSegment)
  : list MergedSegment :=
  match l with
  | [] => [current_seg]
  | next_seg :: l' =>
      if (speaker current_seg =? speaker next_seg)%string
      then reflush (absorb current_seg next_seg) l'
      else current_seg :: reflush next_seg l'
  end.

(** The neighbours of position [i], by position. *)
Definition predecessor (l : list MergedSegment) (i : nat)
  : option MergedSegment :=
  match i with
  | O => None
  | S j => nth_error l j
  end.

Definition successor (l : list MergedSegment) (i : nat)
  : option MergedSegment := nth_error l (S i).

(** The speaker a neighbour offers: none when there is no neighbour or
    its speaker is the empty string. *)
Definition offered_speaker (o : option MergedSegment) : option string :=
  match o with
  | Some n => if truthy (speaker n) then Some (speaker n) else None
  | None => None
  end.

(** A segment is relabelled when it is short and not UNKNOWN. *)
Definition short_and_known (threshold : Z) (segment : MergedSegment) : bool :=
  (duration_ms segment <? threshold) && negb (speaker segment =? UNKNOWN)%string.

(** The policy of the pass: the predecessor's speaker when there is one,
    else the successor's, else no change. *)
Definition corrected (threshold : Z) (l : list MergedSegment) (i : nat)
    (segment : MergedSegment) : MergedSegment :=
  if short_and_known threshold segment then
    match offered_speaker (predecessor l i), offered_speaker (successor l i) with
    | Some p, _ => set_speaker segment p
    | None, Some n => set_speaker segment n
    | None, None => segment
    end
  else segment.


(** A merged segment as the merger writes it. *)
Definition merged_segment (sp : string) (from to : Z) (t : string)
  : MergedSegment := {|
  speaker := sp;
  display_speaker := sp;
  start_ms := from;
  end_ms := to;
  start := minsec from;
  end_ := minsec to;
  text := t;
  duration_ms := to - from
|}.

(** *** Scenarios of the specification *)

(** Scenario 4: [A@0-5000, B@5000-5800, A@5800-9000]. *)
Definition scenario4 : list MergedSegment :=
  [ merged_segment "A" 0 5000 "a1";
    merged_segment "B" 5000 5800 "b";
    merged_segment "A" 5800 9000 "a2" ].

(** Scenario 5: [A@0-5000, UNKNOWN@5000-5200]. *)
Definition scenario5 : list MergedSegment :=
  [ merged_segment "A" 0 5000 "a";
    merged_segment UNKNOWN 5000 5200 "u" ].


(** Threshold arguments: three seconds, which is [process_video]'s
    default; the 3000 of scenario 4; and two arguments whose product
    with 1000 is rounded, 0.3 and 2.01. *)
Definition three_seconds : Seconds := mkSeconds 3%float eq_refl.
Definition three_thousand_seconds : Seconds := mkSeconds 3000%float eq_refl.
Definition seconds_0_3 : Seconds := mkSeconds 0x1.3333333333333p-2%float eq_refl.
Definition seconds_2_01 : Seconds := mkSeconds 0x1.0147ae147ae14p+1%float eq_refl.


(** A segment of 2009 ms between two long segments of one speaker. *)
Definition not_short_2009 : list MergedSegment :=
  [ merged_segment "A" 0 5000 "a1";
    merged_segment "B" 5000 7009 "b";
    merged_segment "A" 7009 12000 "a2" ].

(** ** The timeline: [all_items] of [process_video] *)

(** A time mark of the configuration. *)
Record TimeMark := mkTimeMark {
  mark_start_ms : Z;
  label : string
}.

(** The ["type"] and ["data"] keys of an item: a tagged payload. *)
Inductive ItemData :=
| speech (segment : MergedSegment)
| time_mark (mark : TimeMark).

Record TimelineItem := mkItem {
  item_start_ms : Z;
  item_data : ItemData
}.

Definition speech_item (segment : MergedSegment) : TimelineItem :=
  {| item_start_ms := start_ms segment; item_data := speech segment |}.

Definition time_mark_item (mark : TimeMark) : TimelineItem :=
  {| item_start_ms := mark_start_ms mark; item_data := time_mark mark |}.

Definition is_speech (it : TimelineItem) : bool :=
  match item_data it with speech _ => true | time_mark _ => false end.

Definition is_time_mark (it : TimelineItem) : bool :=
  match item_data it with speech _ => false | time_mark _ => true end.

(** [list.sort(key=...)] is a stable sort: elements with equal keys keep
    their order. Its result is modelled by insertion from the right, which
    puts an element before the elements of the sorted tail whose key is
    not smaller. *)
Section Sort.
Context {A : Type} (key : A -> Z).

Fixpoint insert_by (x : A) (l : list A) : list A :=
  match l with
  | [] => [x]
  | y :: t => if key x <=? key y then x :: y :: t else y :: insert_by x t
  end.

Definition sort_by (l : list A) : list A := fold_right insert_by [] l.

(** The elements of key [k], in order. *)
Definition with_key (k : Z) (l : list A) : list A :=
  filter (fun y => key y =? k) l.
End Sort.

(** The pool of items, segments first, then marks, sorted by
    ["start_ms"]. *)
Definition all_items (filtered_segments : list MergedSegment)
    (time_marks : list TimeMark) : list TimelineItem :=
  sort_by item_start_ms
    (map speech_item filtered_segments ++ map time_mark_item time_marks).

(** No time mark stands before a speech item. *)
Fixpoint speech_first (l : list TimelineItem) : Prop :=
  match l with
  | [] => True
  | x :: t => (is_time_mark x = true -> Forall (fun y => is_time_mark y = true) t)
              /\ speech_first t
  end.

(** ** Voiceprints: dictionaries in insertion order *)

Section Dict.
Context {V : Type}.

(** [d[k]], [None] standing for [KeyError]; also [k in d]. *)
Fixpoint dict_get (d : list (string * V)) (k : string) : option V :=
  match d with
  | [] => None
  | (k', v) :: t => if (k' =? k)%string then Some v else dict_get t k
  end.

(** [d[k] = v]: an existing key keeps its place, a new key goes last. *)
Fixpoint dict_set (d : list (string * V)) (k : string) (v : V)
  : list (string * V) :=
  match d with
  | [] => [(k, v)]
  | (k', v') :: t =>
      if (k' =? k)%string then (k, v) :: t else (k', v') :: dict_set t k v
  end.
End Dict.

Section Voiceprints.
Context {embedding : Type}.

(** The loop [for speaker in candidates] over [filtered]. *)
Definition keep_candidate (voiceprints : list (string * embedding))
    (filtered : list (string * embedding)) (candidate : string)
  : list (string * embedding) :=
  match dict_get voiceprints candidate with
  | Some v => dict_set filtered candidate v
  | None => filtered
  end.

Definition filter_voiceprints_by_candidates
    (voiceprints : list (string * embedding)) (candidates : list string)
  : outcome (list (string * embedding)) :=
  match candidates with
  | [] => Returns voiceprints
  | _ =>
      let filtered := fold_left (keep_candidate voiceprints) candidates [] in
      match dict_get voiceprints JUDGE with
      | Some v => Returns (dict_set filtered JUDGE v)
      | None => Raises (KeyError JUDGE)
      end
  end.

(** The voiceprints [process_video] identifies with: the library must not
    be empty; the filtered library is used unless it is empty, in which
    case the whole library is. *)
Definition select_voiceprints (all_voiceprints : list (string * embedding))
    (candidates : list string) : outcome (list (string * embedding)) :=
  match all_voiceprints with
  | [] => Raises (RuntimeError "声纹库为空，请先运行 step_8")
  | _ =>
      match filter_voiceprints_by_candidates all_voiceprints candidates with
      | Raises e => Raises e
      | Returns [] => Returns all_voiceprints
      | Returns voiceprints => Returns voiceprints
      end
  end.

(** ** The speaker identifier: [identify_speaker] *)

(** [cosine(u, v)] of scipy, the cosine distance; [None] when the call
    raises or its result is not a number (every comparison with it is
    false, so the entry is passed over either way). *)
Variable cosine : embedding -> embedding -> option Q.

Definition Qlt_bool (x y : Q) : bool := negb (Qle_bool y x).

(** [1 - cosine(segment_emb, speaker_emb)] *)
Definition similarity (segment_emb speaker_emb : embedding) : option Q :=
  option_map (fun d => (1 - d)%Q) (cosine segment_emb speaker_emb).

(** One iteration over [voiceprints.items()]; the state is
    [(best_speaker, best_similarity)]. *)
Definition identify_step (segment_emb : embedding)
    (st : option string * Q) (entry : string * embedding)
  : option string * Q :=
  match similarity segment_emb (snd entry) with
  | Some sim => if Qlt_bool (snd st) sim then (Some (fst entry), sim) else st
  | None => st
  end.

(** The result is [None] when the function returns [best_speaker] while
    it is still [None]. *)
Definition identify_speaker (segment_emb : embedding)
    (voiceprints : list (string * embedding)) (threshold : Q)
  : option string :=
  match voiceprints with
  | [] => Some UNKNOWN
  | _ =>
      let st := fold_left (identify_step segment_emb) voiceprints
                  (None, (-1)%Q) in
      if Qle_bool threshold (snd st) then fst st else Some UNKNOWN
  end.

(** The speaker [process_video] gives a segment: the identifier is asked
    only when an embedding was extracted. *)
Definition segment_speaker (embedding_ : option embedding)
    (voiceprints : list (string * embedding)) (similarity_threshold : Q)
  : option string :=
  match embedding_ with
  | Some e => identify_speaker e voiceprints similarity_threshold
  | None => Some UNKNOWN
  end.
End Voiceprints.

Definition DEFAULT_SIMILARITY_THRESHOLD : Q := 3 # 10.

(** *** Concrete embeddings for the scenarios *)

(** Vectors on a line: the cosine distance of two non-zero numbers is 0
    when they have the same sign and 2 when they have opposite signs; a
    zero vector has no direction. *)
Definition cosine_1d (u v : Z) : option Q :=
  if (u =? 0) || (v =? 0) then None
  else if (0 <? u * v) then Some 0%Q else Some 2%Q.

(** ** The time-marker parser: [parse_time_to_ms] *)

(** The strings here are ASCII: the white space of [str.strip] and the
    digits of [int] and [float] are their ASCII members. *)
Definition is_space (c : ascii) : bool :=
  let n := nat_of_ascii c in
  (((9 <=? n) && (n <=? 13)) || ((28 <=? n) && (n <=? 32)))%nat.

Definition is_colon (c : ascii) : bool := (c =? ":")%char.

Fixpoint lstrip (s : string) : string :=
  match s with
  | EmptyString => EmptyString
  | String c t => if is_space c then lstrip t else s
  end.

Fixpoint rstrip (s : string) : string :=
  match s with
  | EmptyString => EmptyString
  | String c t =>
      match rstrip t with
      | EmptyString => if is_space c then EmptyString else String c EmptyString
      | t' => String c t'
      end
  end.

(** [s.strip()] *)
Definition strip (s : string) : string := rstrip (lstrip s).

(** [':' in s] *)
Fixpoint has_colon (s : string) : bool :=
  match s with
  | EmptyString => false
  | String c t => is_colon c || has_colon t
  end.

(** [s.split(':')] *)
Fixpoint split_colon (s : string) : list string :=
  match s with
  | EmptyString => [EmptyString]
  | String c t =>
      if is_colon c then EmptyString :: split_colon t
      else match split_colon t with
           | part :: parts => String c part :: parts
           | [] => [String c EmptyString]
           end
  end.

Definition digit_value (c : ascii) : option Z :=
  let n := nat_of_ascii c in
  if ((48 <=? n) && (n <=? 57))%nat then Some (Z.of_nat n - 48) else None.

(** Decimal digits, single underscores allowed between two digits;
    [after_digit] tells whether the previous character was a digit. *)
Fixpoint parse_digits (acc : Z) (after_digit : bool) (s : string) : option Z :=
  match s with
  | EmptyString => if after_digit then Some acc else None
  | String c t =>
      match digit_value c with
      | Some d => parse_digits (acc * 10 + d) true t
      | None =>
          if (c =? "_")%char && after_digit then parse_digits acc false t
          else None
      end
  end.

(** A leading sign: [-1] for ["-"], [1] otherwise, and the rest. *)
Definition split_sign (s : string) : Z * string :=
  match s with
  | String "-" t => (-1, t)
  | String "+" t => (1, t)
  | _ => (1, s)
  end.

(** [int(s)] for a string; [None] stands for [ValueError]. *)
Definition py_int (s : string) : option Z :=
  let '(sign, body) := split_sign (strip s) in
  option_map (Z.mul sign) (parse_digits 0 false body).

(** The part of [s] before the first ["."] and, when there is one, the
    part after it. *)
Fixpoint split_point (s : string) : string * option string :=
  match s with
  | EmptyString => (EmptyString, None)
  | String c t =>
      if (c =? ".")%char then (EmptyString, Some t)
      else let '(a, b) := split_point t in (String c a, b)
  end.

(** The number of digits of a string. *)
Fixpoint count_digits (s : string) : nat :=
  match s with
  | EmptyString => O
  | String c t =>
      match digit_value c with
      | Some _ => S (count_digits t)
      | None => count_digits t
      end
  end.

(** Digits that may be absent: the empty string counts as zero. *)
Definition parse_optional_digits (s : string) : option Z :=
  match s with
  | EmptyString => Some 0
  | _ => parse_digits 0 false s
  end.

(** The lower-case form of a string, for the words that [float] reads
    in any case. *)
Definition lower_char (c : ascii) : ascii :=
  let n := nat_of_ascii c in
  if ((65 <=? n) && (n <=? 90))%nat then ascii_of_nat (n + 32) else c.

Fixpoint lower (s : string) : string :=
  match s with
  | EmptyString => EmptyString
  | String c t => String (lower_char c) (lower t)
  end.

Definition is_exponent_mark (c : ascii) : bool :=
  ((c =? "e") || (c =? "E"))%char.

(** The part of [s] before the first ["e"] or ["E"] and, when there is
    one, the part after it. *)
Fixpoint split_exponent (s : string) : string * option string :=
  match s with
  | EmptyString => (EmptyString, None)
  | String c t =>
      if is_exponent_mark c then (EmptyString, Some t)
      else let '(a, b) := split_exponent t in (String c a, b)
  end.

(** The mantissa of a decimal numeral: digits, and an optional point
    with digits, at least one digit in all. The result is the number the
    digits spell with the point left out, and the number of digits after
    the point. *)
Definition parse_mantissa (s : string) : option (Z * Z) :=
  match split_point s with
  | (whole, None) =>
      option_map (fun n => (n, 0)) (parse_digits 0 false whole)
  | (whole, Some frac) =>
      match whole, frac with
      | EmptyString, EmptyString => None
      | _, _ =>
          match parse_optional_digits whole, parse_optional_digits frac with
          | Some n, Some f =>
              let places := Z.of_nat (count_digits frac) in
              Some (n * 10 ^ places + f, places)
          | _, _ => None
          end
      end
  end.

(** The exponent of a decimal numeral: absent, or an optional sign and
    digits. *)
Definition parse_exponent (s : option string) : option Z :=
  match s with
  | None => Some 0
  | Some e =>
      let '(sign, digits) := split_sign e in
      option_map (Z.mul sign) (parse_digits 0 false digits)
  end.

(** [float(s)] for a string; [None] stands for [ValueError]. After an
    optional sign come the words [inf], [infinity] or [nan] in any case,
    or a decimal numeral: a mantissa and an optional exponent, with
    single underscores allowed between two digits. The value of a
    numeral is the float nearest to it. (CPython caps the exponent at
    1100000000 in magnitude, which changes the value only of numerals
    of more than a thousand million characters.) *)
Definition py_float (s : string) : option float :=
  let '(sign, body) := split_sign (strip s) in
  let negative := sign <? 0 in
  let word := lower body in
  if ((word =? "inf") || (word =? "infinity"))%string
  then Some (if negative then neg_infinity else infinity)
  else if (word =? "nan")%string then Some nan
  else
    let '(mantissa, exponent) := split_exponent body in
    match parse_mantissa mantissa, parse_exponent exponent with
    | Some (m, places), Some e => Some (decimal_float negative m (e - places))
    | _, _ => None
    end.

Definition DEFAULT_FPS : float := 30%float.

(** The clock formats, inside the first [try]: [None] when the string
    has no colon, when it has neither two nor three parts, or when
    [int] raises [ValueError] on a part. *)
Definition parse_clock (time_str : string) : option Z :=
  if has_colon time_str then
    match split_colon time_str with
    | [p0; p1] =>
        match py_int p0, py_int p1 with
        | Some minutes, Some seconds =>
            Some ((minutes * 60 + seconds) * 1000)
        | _, _ => None
        end
    | [p0; p1; p2] =>
        match py_int p0, py_int p1, py_int p2 with
        | Some hours, Some minutes, Some seconds =>
            Some ((hours * 3600 + minutes * 60 + seconds) * 1000)
        | _, _, _ => None
        end
    | _ => None
    end
  else None.

(** [int(frames * 1000 / fps)], inside the second [try]: a division by
    zero raises [ZeroDivisionError]; the [ValueError] of [int] on nan is
    caught and the function goes on to return [None]; the
    [OverflowError] of [int] on an infinity is not caught. *)
Definition frames_to_ms (frames fps : float) : outcome (option Z) :=
  if is_zero fps then Raises ZeroDivisionError
  else
    match int_of_float (frames * 1000 / fps) with
    | Returns ms => Returns (Some ms)
    | Raises ValueError => Returns None
    | Raises e => Raises e
    end.

Definition parse_time_to_ms (time_str : string) (fps : float)
  : outcome (option Z) :=
  let time_str := strip time_str in
  match parse_clock time_str with
  | Some ms => Returns (Some ms)
  | None =>
      match py_float time_str with
      | Some frames => frames_to_ms frames fps
      | None => Returns None
      end
  end.

(** *** Vocabulary of the frame counts *)





(** Scenario 3: [A@0-1000, A@1000-2000, B@2000-2500]. *)
Definition scenario3 : list IdentifiedSegment :=
  [ mkIdentified 0 1000 1000 "A" "A" "x";
    mkIdentified 1000 2000 1000 "A" "A" "y";
    mkIdentified 2000 2500 500 "B" "B" "z" ].

(** Scenario 6: a segment and a mark that both start at 90000. *)
Definition scenario6_segment : MergedSegment :=
  merged_segment "A" 90000 95000 "a".

Definition scenario6_mark : TimeMark :=
  {| mark_start_ms := 90000; label := "night" |}.

(** *** Vocabulary of the parser's round trip *)

(** The value of a decimal numeral read digit by digit from [acc], as
    [parse_digits] reads its string. *)
Fixpoint uint_value (acc : Z) (d : Decimal.uint) : Z :=
  match d with
  | Decimal.Nil => acc
  | Decimal.D0 d => uint_value (acc * 10 + 0) d
  | Decimal.D1 d => uint_value (acc * 10 + 1) d
  | Decimal.D2 d => uint_value (acc * 10 + 2) d
  | Decimal.D3 d => uint_value (acc * 10 + 3) d
  | Decimal.D4 d => uint_value (acc * 10 + 4) d
  | Decimal.D5 d => uint_value (acc * 10 + 5) d
  | Decimal.D6 d => uint_value (acc * 10 + 6) d
  | Decimal.D7 d => uint_value (acc * 10 + 7) d
  | Decimal.D8 d => uint_value (acc * 10 + 8) d
  | Decimal.D9 d => uint_value (acc * 10 + 9) d
  end.

(** No character of the string is white space. *)
Fixpoint no_space (s : string) : bool :=
  match s with
  | EmptyString => true
  | String c t => negb (is_space c) && no_space t
  end.

(** ** The consolidation step of [process_video] *)


(** *** Vocabulary of the consolidation's invariants *)

(** All the text of a list of segments, in order. *)
Definition all_text {A : Type} `{SegmentDict A} (l : list A) : string :=
  String.concat "" (map get_text l).

(** The start and the end of every segment. *)
Definition times {A : Type} `{SegmentDict A} (l : list A) : list (Z * Z) :=
  map (fun x => (get_start_ms x, get_end_ms x)) l.

(** Chronological order: a segment ends no earlier than it starts and no
    later than the next one starts. *)
Fixpoint chronological (l : list (Z * Z)) : Prop :=
  match l with
  | [] => True
  | (s, e) :: t =>
      s <= e /\
      match t with
      | [] => True
      | (s', _) :: _ => e <= s'
      end /\
      chronological t
  end.

(** The time covered by a list of segments: the start of the first and
    the end of the last. *)
Definition span {A : Type} `{SegmentDict A} (l : list A) : option (Z * Z) :=
  match l with
  | [] => None
  | first :: _ =>
      Some (get_start_ms first, last (map get_end_ms l) (get_end_ms first))
  end.

(** ** The configuration: [parse_config_file] *)

(** The configuration as loaded from JSON, before it is parsed: a key that
    is missing from a dictionary is [None]; a missing list is empty. *)
Record Participant := mkParticipant {
  participant_name : option string;
  participant_role : option string;
  participant_seq : option string
}.

Record MarkEntry := mkMarkEntry {
  entry_time : option string;
  entry_label : option string
}.

Record RawConfig := mkRawConfig {
  raw_name : option string;
  raw_participants : list Participant;
  raw_board_type : option string;
  raw_time_marks : list MarkEntry;
  raw_no_sheriff : list string
}.

(** The parsed configuration. *)
Record Config := mkConfig {
  config_name : string;
  speaker_roles : list (string * string);
  speaker_seqs : list (string * string);
  seq_to_name : list (string * string);
  candidates : list string;
  time_marks : list TimeMark;
  board_type : string;
  no_sheriff : list string
}.

(** [d.get(key, default)] *)
Definition get_default (value : option string) (default : string) : string :=
  match value with
  | Some v => v
  | None => default
  end.

(** The seat label of a speaker without seat. *)
Definition NO_SEAT : string := "无".

(** [s.add(x)] on a set, kept as a list without duplicates. *)
Definition set_add (x : string) (s : list string) : list string :=
  if existsb (String.eqb x) s then s else s ++ [x].

(** The dictionaries and the set built by the loop over the
    participants. *)
Record Roster := mkRoster {
  roster_roles : list (string * string);
  roster_seqs : list (string * string);
  roster_seq_to_name : list (string * string);
  roster_candidates : list string
}.

(** One iteration of [for p in participants]. *)
Definition add_participant (st : Roster) (p : Participant) : Roster :=
  let role := get_default (participant_role p) "未知角色" in
  let seq := get_default (participant_seq p) "" in
  match participant_name p with
  | Some name =>
      if truthy name then
        {| roster_roles := dict_set (roster_roles st) name role;
           roster_seqs := dict_set (roster_seqs st) name seq;
           roster_seq_to_name :=
             if truthy seq && negb (seq =? NO_SEAT)%string
             then dict_set (roster_seq_to_name st) seq name
             else roster_seq_to_name st;
           roster_candidates := set_add name (roster_candidates st) |}
      else st
  | None => st
  end.

(** The judge is added when no participant carries the judge's name. *)
Definition add_judge (st : Roster) : Roster :=
  if existsb (String.eqb JUDGE) (roster_candidates st) then st
  else
    {| roster_roles := dict_set (roster_roles st) JUDGE JUDGE;
       roster_seqs := dict_set (roster_seqs st) JUDGE NO_SEAT;
       roster_seq_to_name := roster_seq_to_name st;
       roster_candidates := set_add JUDGE (roster_candidates st) |}.

(** One iteration of the loop over ["time_marks"]: entries without time
    or label, and entries whose time is not read, are passed over; an
    exception of the parser leaves the loop and the function. *)
Definition add_time_mark (marks : list TimeMark) (mark : MarkEntry)
  : outcome (list TimeMark) :=
  let time_str := get_default (entry_time mark) "" in
  let label_ := get_default (entry_label mark) "" in
  if negb (truthy time_str) || negb (truthy label_) then Returns marks
  else
    match parse_time_to_ms time_str DEFAULT_FPS with
    | Returns (Some ms) =>
        Returns (marks ++ [{| mark_start_ms := ms; label := label_ |}])
    | Returns None => Returns marks
    | Raises e => Raises e
    end.

(** The loop over ["time_marks"], from the marks collected so far. *)
Fixpoint collect_time_marks (entries : list MarkEntry)
    (marks : list TimeMark) : outcome (list TimeMark) :=
  match entries with
  | [] => Returns marks
  | mark :: rest =>
      match add_time_mark marks mark with
      | Returns marks' => collect_time_marks rest marks'
      | Raises e => Raises e
      end
  end.

(** [sorted] on strings: Python orders strings by code point, which is
    the order of their UTF-8 bytes. *)
Fixpoint insert_string (x : string) (l : list string) : list string :=
  match l with
  | [] => [x]
  | y :: t => if (x <=? y)%string then x :: l else y :: insert_string x t
  end.

Definition sorted_strings (l : list string) : list string :=
  fold_right insert_string [] l.

(** The roster after the loop over the participants and the judge's
    entry. *)
Definition parse_roster (config : RawConfig) : Roster :=
  add_judge (fold_left add_participant (raw_participants config)
               {| roster_roles := []; roster_seqs := [];
                  roster_seq_to_name := []; roster_candidates := [] |}).

(** [parse_config_file], from the loaded JSON on. *)
Definition parse_config_file (config : RawConfig) : outcome Config :=
  let roster := parse_roster config in
  match collect_time_marks (raw_time_marks config) [] with
  | Raises e => Raises e
  | Returns marks =>
      Returns
        {| config_name := get_default (raw_name config) "未命名比赛";
           speaker_roles := roster_roles roster;
           speaker_seqs := roster_seqs roster;
           seq_to_name := roster_seq_to_name roster;
           candidates := sorted_strings (roster_candidates roster);
           time_marks := sort_by mark_start_ms marks;
           board_type := get_default (raw_board_type config) "未知版型";
           no_sheriff := raw_no_sheriff config |}
  end.

(** *** Vocabulary of the configuration's contract *)


(** The parser raises [exc] on the entry [e]: the entry has a time and a
    label, neither empty, and the parser raises on the time. *)
Definition entry_raises (e : MarkEntry) (exc : exception) : Prop :=
  exists t lb,
    entry_time e = Some t /\ t <> "" /\
    entry_label e = Some lb /\ lb <> "" /\
    parse_time_to_ms t DEFAULT_FPS = Raises exc.

(** The keys of both dictionaries are the candidates. *)
Definition roster_keys_ok (st : Roster) : Prop :=
  forall c,
    (In c (map fst (roster_roles st)) <-> In c (roster_candidates st)) /\
    (In c (map fst (roster_seqs st)) <-> In c (roster_candidates st)).

(** A configuration of two players and two marks, one given as a clock
    time and one as a frame count. *)
Definition sample_config : RawConfig := {|
  raw_name := Some "match";
  raw_participants :=
    [ mkParticipant (Some "Zhang") (Some "wolf") (Some "one");
      mkParticipant (Some "Li") None None ];
  raw_board_type := None;
  raw_time_marks :=
    [ mkMarkEntry (Some "1:30") (Some "night");
      mkMarkEntry (Some "150") (Some "day") ];
  raw_no_sheriff := []
|}.

(** What the parser makes of it. *)
Definition sample_parsed : Config := {|
  config_name := "match";
  speaker_roles := [("Zhang", "wolf"); ("Li", "未知角色"); (JUDGE, JUDGE)];
  speaker_seqs := [("Zhang", "one"); ("Li", ""); (JUDGE, NO_SEAT)];
  seq_to_name := [("one", "Zhang")];
  candidates := ["Li"; "Zhang"; JUDGE];
  time_marks :=
    [ {| mark_start_ms := 5000; label := "day" |};
      {| mark_start_ms := 90000; label := "night" |} ];
  board_type := "未知版型";
  no_sheriff := []
|}.



(** A configuration with a mark whose frame count is infinite. *)
Definition infinite_mark_config : RawConfig := {|
  raw_name := None;
  raw_participants := [];
  raw_board_type := None;
  raw_time_marks :=
    [ mkMarkEntry (Some "1:30") (Some "night");
      mkMarkEntry (Some "inf") (Some "end") ];
  raw_no_sheriff := []
|}.

(* ===================================================================== *)
(** * Part II: properties *)
(* ===================================================================== *)

Example minsec_90000 : minsec 90000 = "01:30".
Proof. reflexivity. Qed.

(** ** The run-length merger *)




Section MergerFacts.
Context {A : Type} `{SegmentDict A}.

Lemma merge_step_open (r : Run) (m : list MergedSegment) (seg : A) :
  merge_step {| current := Some r; merged := m |} seg =
  if (get_speaker seg =? current_speaker r)%string
  then {| current := Some (extend_run r seg); merged := m |}
  else {| current := Some (open_run seg); merged := m ++ [emit r] |}.
Proof. reflexivity. Qed.

(** The [for] loop, started with a run open, is [flush]. *)
Lemma fold_merge_step_flush (l : list A) : forall r m,
  finish (fold_left merge_step l {| current := Some r; merged := m |})
  = m ++ flush r l.
Proof.
  induction l as [| seg l IH]; intros r m.
  - reflexivity.
  - cbn [fold_left flush]. rewrite merge_step_open.
    destruct (get_speaker seg =? current_speaker r)%string.
    + apply IH.
    + rewrite IH, <- app_assoc. reflexivity.
Qed.

Lemma merge_cons (seg : A) (l : list A) :
  merge_consecutive_same_speaker (seg :: l) = flush (open_run seg) l.
Proof.
  unfold merge_consecutive_same_speaker.
  change (fold_left merge_step (seg :: l) {| current := None; merged := [] |})
    with (fold_left merge_step l
            {| current := Some (open_run seg); merged := [] |}).
  apply (fold_merge_step_flush l (open_run seg) []).
Qed.



Lemma flush_well_formed (l : list A) : forall r,
  Forall well_formed (flush r l).
Proof.
  induction l as [| seg l IH]; intros r; simpl.
  - constructor; [| constructor]. repeat split.
  - destruct (get_speaker seg =? current_speaker r)%string.
    + apply IH.
    + constructor; [repeat split | apply IH].
Qed.








Lemma merge_well_formed (X : list A) :
  Forall well_formed (merge_consecutive_same_speaker X).
Proof.
  destruct X as [| seg l]; [constructor |].
  rewrite merge_cons. apply flush_well_formed.
Qed.
End MergerFacts.





(** ** The short-segment corrector *)

Lemma nth_error_enumerate_from {A : Type} (l : list A) : forall k i,
  nth_error (enumerate_from k l) i
  = option_map (fun x => ((k + i)%nat, x)) (nth_error l i).
Proof.
  induction l as [| x t IH]; intros k i.
  - destruct i; reflexivity.
  - destruct i as [| i]; simpl.
    + rewrite Nat.add_0_r. reflexivity.
    + rewrite IH. rewrite Nat.add_succ_r. reflexivity.
Qed.


Lemma nth_error_relabel_pass (l : list MergedSegment) (thr : Z) (i : nat) :
  nth_error (relabel_pass l thr) i
  = option_map (relabel_segment l thr i) (nth_error l i).
Proof.
  unfold relabel_pass, enumerate.
  rewrite nth_error_map, nth_error_enumerate_from.
  destruct (nth_error l i); reflexivity.
Qed.


(** The reads [merged_segments[i-1]] and [merged_segments[i+1]] under
    their guards are the neighbours by position. *)
Lemma prev_speaker_predecessor (l : list MergedSegment) (i : nat) :
  (if (0 <? i)%nat then option_map speaker (nth_error l (i - 1)) else None)
  = option_map speaker (predecessor l i).
Proof.
  destruct i as [| j]; [reflexivity |].
  simpl. rewrite Nat.sub_0_r. reflexivity.
Qed.

Lemma next_speaker_successor (l : list MergedSegment) (i : nat) :
  (if (i <? List.length l - 1)%nat
   then option_map speaker (nth_error l (i + 1)) else None)
  = option_map speaker (successor l i).
Proof.
  unfold successor. rewrite Nat.add_1_r.
  destruct (Nat.ltb_spec i (List.length l - 1)) as [_ | Hge]; [reflexivity |].
  assert (Hnone : nth_error l (S i) = None) by (apply nth_error_None; lia).
  rewrite Hnone. reflexivity.
Qed.

Lemma relabel_segment_corrected (l : list MergedSegment) (thr : Z) (i : nat)
    (segment : MergedSegment) :
  relabel_segment l thr i segment = corrected thr l i segment.
Proof.
  unfold relabel_segment, corrected, short_and_known.
  rewrite prev_speaker_predecessor, next_speaker_successor.
  destruct ((duration_ms segment <? thr)
            && negb (speaker segment =? UNKNOWN)%string); [| reflexivity].
  destruct (predecessor l i) as [p |], (successor l i) as [n |]; simpl;
    try destruct (truthy (speaker p)); try destruct (truthy (speaker n));
    simpl; try destruct (speaker p =? speaker n)%string; reflexivity.
Qed.

Lemma fold_remerge_step_reflush (l : list MergedSegment) : forall fm cur,
  (let '(final_merged, current_seg) := fold_left remerge_step l (fm, cur) in
   final_merged ++ [current_seg]) = fm ++ reflush cur l.
Proof.
  induction l as [| n l IH]; intros fm cur.
  - reflexivity.
  - cbn [fold_left reflush]. unfold remerge_step at 2.
    destruct (speaker cur =? speaker n)%string.
    + apply IH.
    + rewrite IH, <- app_assoc. reflexivity.
Qed.

Lemma remerge_cons (first : MergedSegment) (rest : list MergedSegment) :
  remerge (first :: rest) = reflush first rest.
Proof.
  unfold remerge. apply (fold_remerge_step_reflush rest [] first).
Qed.





(** [int] returns on every finite float. *)
Lemma int_of_float_finite (x : float) :
  is_finite x = true -> exists z, int_of_float x = Returns z.
Proof.
  unfold int_of_float, Prim2SF, is_finite. intros H.
  destruct (is_nan x); [discriminate |].
  destruct (is_zero x); [eauto |].
  destruct (is_infinity x); [discriminate |].
  destruct (Z.frexp x) as [r e].
  destruct (shr_fexp prec emax _ _ _) as [shr e'].
  destruct (shr_m shr); eauto.
Qed.

(** The threshold is what line 489 computes. *)
Lemma min_duration_threshold_int (m : Seconds) :
  int_of_float (seconds_value m * 1000) = Returns (min_duration_threshold m).
Proof.
  unfold min_duration_threshold.
  destruct (int_of_float_finite _ (seconds_finite m)) as [z Hz].
  rewrite Hz. reflexivity.
Qed.

(** The corrector at any float agrees with the corrector on [Seconds],
    and raises on the other floats when it has two segments or more. *)
Lemma filter_short_speaker_segments_any_finite
    (l : list MergedSegment) (m : Seconds) :
  filter_short_speaker_segments_any l (seconds_value m)
  = Returns (filter_short_speaker_segments l m).
Proof.
  unfold filter_short_speaker_segments_any, filter_short_speaker_segments.
  rewrite min_duration_threshold_int.
  destruct (List.length l <=? 1)%nat; reflexivity.
Qed.

Example filter_short_speaker_segments_any_raises :
  filter_short_speaker_segments_any scenario4 infinity
  = Raises OverflowError /\
  filter_short_speaker_segments_any scenario4 0x1p+1020
  = Raises OverflowError /\
  filter_short_speaker_segments_any scenario4 nan = Raises ValueError /\
  filter_short_speaker_segments_any [merged_segment "A" 0 5000 "a"] nan
  = Returns [merged_segment "A" 0 5000 "a"].
Proof. repeat split. Qed.

(** The product is rounded before it is truncated: 0.3 seconds are
    300 ms, 2.01 seconds are 2009 ms. *)
Example min_duration_threshold_values :
  min_duration_threshold three_seconds = 3000 /\
  min_duration_threshold three_thousand_seconds = 3000000 /\
  py_float "0.3" = Some (seconds_value seconds_0_3) /\
  min_duration_threshold seconds_0_3 = 300 /\
  py_float "2.01" = Some (seconds_value seconds_2_01) /\
  min_duration_threshold seconds_2_01 = 2009.
Proof. vm_compute. repeat split; reflexivity. Qed.




(** C2, as stated, fails: with the default threshold argument (3 seconds)
    the corrector returns scenario 5 as it received it; the UNKNOWN
    segment keeps its label and nothing is merged. *)
Lemma boundary_unknown_relabel_fails :
  filter_short_speaker_segments scenario5 three_seconds = scenario5 /\
  filter_short_speaker_segments scenario5 three_seconds
  <> [merged_segment "A" 0 5200 "au"].
Proof.
  split; [reflexivity | vm_compute; discriminate].
Qed.

Lemma relabel_pass_scenario5 (thr : Z) :
  relabel_pass scenario5 thr =
  [ if 5000 <? thr then set_speaker (merged_segment "A" 0 5000 "a") UNKNOWN
    else merged_segment "A" 0 5000 "a";
    merged_segment UNKNOWN 5000 5200 "u" ].
Proof.
  unfold relabel_pass, enumerate, scenario5. cbn [enumerate_from map].
  rewrite !relabel_segment_corrected. unfold corrected, short_and_known.
  cbn [merged_segment duration_ms speaker].
  replace (negb (UNKNOWN =? UNKNOWN)%string) with false by reflexivity.
  rewrite andb_false_r.
  change (5000 - 0) with 5000.
  destruct (5000 <? thr); reflexivity.
Qed.

(** C2, as amended: in scenario 5 the final UNKNOWN segment is never
    relabelled, whatever the threshold; when the 5000 ms of A are not below
    the threshold the output is the input, two segments, and otherwise it
    is A that takes its successor's label, giving one UNKNOWN segment from
    0 to 5200. *)
Theorem boundary_unknown_kept (m : Seconds) :
  nth_error (relabel_pass scenario5 (min_duration_threshold m)) 1
  = Some (merged_segment UNKNOWN 5000 5200 "u") /\
  filter_short_speaker_segments scenario5 m
  = if 5000 <? min_duration_threshold m
    then [set_speaker (merged_segment "A" 0 5200 "au") UNKNOWN]
    else scenario5.
Proof.
  unfold filter_short_speaker_segments.
  change (List.length scenario5 <=? 1)%nat with false. cbv iota.
  generalize (min_duration_threshold m) as thr. intros thr.
  rewrite relabel_pass_scenario5.
  split; [reflexivity |].
  destruct (5000 <? thr); reflexivity.
Qed.


(** ** The timeline *)

Section SortFacts.
Context {A : Type} (key : A -> Z).

Lemma insert_by_hd (x : A) (l : list A) :
  Sorted (fun a b => key a <= key b) l ->
  Sorted (fun a b => key a <= key b) (insert_by key x l).
Proof.
  induction l as [| y t IH]; intros Hs; simpl.
  - repeat constructor.
  - destruct (Z.leb_spec (key x) (key y)) as [Hle | Hgt].
    + constructor; [exact Hs | constructor; exact Hle].
    + inversion Hs as [| ? ? Hst Hhd]; subst.
      constructor; [apply IH, Hst |].
      destruct t as [| z t']; simpl.
      * constructor. lia.
      * destruct (key x <=? key z); constructor; [lia |].
        inversion Hhd; subst. assumption.
Qed.

Lemma sort_by_sorted (l : list A) :
  Sorted (fun a b => key a <= key b) (sort_by key l).
Proof.
  induction l as [| x t IH]; simpl; [constructor | apply insert_by_hd, IH].
Qed.

(** Stability: insertion passes only elements of a smaller key. *)
Lemma with_key_insert_by (k : Z) (x : A) (l : list A) :
  with_key key k (insert_by key x l) = with_key key k (x :: l).
Proof.
  unfold with_key. induction l as [| y t IH]; [reflexivity |].
  simpl insert_by. destruct (Z.leb_spec (key x) (key y)) as [Hle | Hgt];
    [reflexivity |].
  simpl in *. rewrite IH.
  destruct (Z.eqb_spec (key x) k) as [Ex | _];
    destruct (Z.eqb_spec (key y) k) as [Ey | _]; try reflexivity.
  lia.
Qed.

Lemma with_key_sort_by (k : Z) (l : list A) :
  with_key key k (sort_by key l) = with_key key k l.
Proof.
  induction l as [| x t IH]; [reflexivity |].
  simpl sort_by. rewrite with_key_insert_by.
  unfold with_key in *. simpl. rewrite IH. reflexivity.
Qed.

Lemma sorted_adjacent (l : list A) :
  Sorted (fun a b => key a <= key b) l ->
  forall i a b, nth_error l i = Some a -> nth_error l (S i) = Some b ->
  key a <= key b.
Proof.
  induction 1 as [| x t Hs IH Hhd]; intros i a b Ha Hb.
  - destruct i; discriminate.
  - destruct i as [| i].
    + simpl in Ha, Hb. injection Ha as <-.
      destruct t as [| y t']; [discriminate |].
      simpl in Hb. injection Hb as <-. inversion Hhd; subst. assumption.
    + exact (IH i a b Ha Hb).
Qed.
End SortFacts.

Lemma speech_first_app_inv (l1 l2 : list TimelineItem) :
  speech_first (l1 ++ l2) -> speech_first l2.
Proof.
  induction l1 as [| x t IH]; simpl; [tauto | intros [_ Ht]; exact (IH Ht)].
Qed.

Lemma speech_first_marks (l : list TimelineItem) :
  Forall (fun y => is_time_mark y = true) l -> speech_first l.
Proof.
  induction 1 as [| x t Hx Ht IH]; simpl; [exact I | split; [intros _ |]; assumption].
Qed.

Lemma speech_first_speech_marks (l1 l2 : list TimelineItem) :
  Forall (fun y => is_speech y = true) l1 ->
  Forall (fun y => is_time_mark y = true) l2 ->
  speech_first (l1 ++ l2).
Proof.
  intros H1 H2. induction H1 as [| x t Hx Ht IH]; simpl.
  - apply speech_first_marks, H2.
  - split; [| exact IH]. intros Hm.
    unfold is_speech, is_time_mark in *. destruct (item_data x); discriminate.
Qed.

Lemma Forall_with_key {A : Type} (key : A -> Z) (P : A -> Prop) (k : Z)
    (l : list A) :
  Forall P l -> Forall P (with_key key k l).
Proof.
  intros Hl. apply Forall_forall. intros x Hx.
  apply filter_In in Hx. destruct Hx as [Hx _].
  rewrite Forall_forall in Hl. apply Hl, Hx.
Qed.

(** In the pool the items of one key are speech items first. *)
Lemma speech_first_with_key (k : Z) (segments : list MergedSegment)
    (marks : list TimeMark) :
  speech_first (with_key item_start_ms k (all_items segments marks)).
Proof.
  unfold all_items. rewrite with_key_sort_by.
  unfold with_key at 1. rewrite filter_app.
  apply speech_first_speech_marks; apply Forall_with_key, Forall_forall;
    intros x Hx; apply in_map_iff in Hx; destruct Hx as (y & <- & _);
    reflexivity.
Qed.

(** C7: the timeline is ordered by non-decreasing [start_ms], and a
    speech item stands before every time mark of the same [start_ms]. *)
Theorem timeline_sorted_segments_first (filtered_segments : list MergedSegment)
    (time_marks : list TimeMark) :
  (forall i a b,
      nth_error (all_items filtered_segments time_marks) i = Some a ->
      nth_error (all_items filtered_segments time_marks) (S i) = Some b ->
      item_start_ms a <= item_start_ms b) /\
  (forall i j a b,
      nth_error (all_items filtered_segments time_marks) i = Some a ->
      nth_error (all_items filtered_segments time_marks) j = Some b ->
      is_speech a = true -> is_time_mark b = true ->
      item_start_ms a = item_start_ms b ->
      (i < j)%nat).
Proof.
  split.
  - apply sorted_adjacent. unfold all_items. apply sort_by_sorted.
  - intros i j a b Ha Hb Hsa Hmb Hkey.
    destruct (Nat.lt_trichotomy i j) as [Hlt | [Heq | Hgt]]; [exact Hlt | |].
    + subst j. rewrite Ha in Hb. injection Hb as <-.
      unfold is_speech, is_time_mark in *. destruct (item_data a); discriminate.
    + exfalso.
      pose proof (speech_first_with_key (item_start_ms a) filtered_segments
                    time_marks) as Hsf.
      destruct (nth_error_split _ _ Hb) as (l1 & l2 & Hsplit & Hlen).
      rewrite Hsplit in Ha, Hsf.
      rewrite nth_error_app2 in Ha by lia.
      replace (i - List.length l1)%nat with (S (i - j - 1)) in Ha by lia.
      simpl in Ha.
      destruct (nth_error_split _ _ Ha) as (l3 & l4 & Hsplit2 & _).
      rewrite Hsplit2 in Hsf. unfold with_key in Hsf.
      rewrite filter_app in Hsf. apply speech_first_app_inv in Hsf.
      simpl in Hsf. rewrite <- Hkey, Z.eqb_refl in Hsf.
      destruct Hsf as [Hall _]. specialize (Hall Hmb).
      rewrite filter_app, Forall_app in Hall. destruct Hall as [_ Hall].
      simpl in Hall. rewrite Z.eqb_refl in Hall.
      apply Forall_inv in Hall.
      unfold is_speech, is_time_mark in *. destruct (item_data a); discriminate.
Qed.

Lemma timeline_sorted_segments_first_witness :
  nth_error (all_items [scenario6_segment] [scenario6_mark]) 0
  = Some (speech_item scenario6_segment) /\
  nth_error (all_items [scenario6_segment] [scenario6_mark]) 1
  = Some (time_mark_item scenario6_mark) /\
  (0 < 1)%nat.
Proof.
  split; [reflexivity |]. split; [reflexivity |].
  destruct (timeline_sorted_segments_first [scenario6_segment]
              [scenario6_mark]) as [_ Hfirst].
  exact (Hfirst 0%nat 1%nat (speech_item scenario6_segment)
           (time_mark_item scenario6_mark)
           eq_refl eq_refl eq_refl eq_refl eq_refl).
Defined.

(** ** The speaker identifier *)

Section IdentifierFacts.
Context {embedding : Type} (cosine : embedding -> embedding -> option Q).

Lemma Qlt_bool_iff (x y : Q) : Qlt_bool x y = true <-> (x < y)%Q.
Proof.
  unfold Qlt_bool. rewrite negb_true_iff. split.
  - intros Hf. apply Qnot_le_lt. intros Hle.
    apply Qle_bool_iff in Hle. congruence.
  - intros Hlt. destruct (Qle_bool y x) eqn:E; [| reflexivity].
    apply Qle_bool_iff in E. exfalso. exact (Qlt_not_le _ _ Hlt E).
Qed.

(** The loop invariant: either nothing beat the initial best, or the best
    is an entry of the library, and in both cases no computed similarity
    exceeds the best. *)
Lemma identify_loop (segment_emb : embedding)
    (l : list (string * embedding)) : forall st,
  let st' := fold_left (identify_step cosine segment_emb) l st in
  (forall n e s, In (n, e) l -> similarity cosine segment_emb e = Some s ->
                 (s <= snd st')%Q) /\
  (snd st <= snd st')%Q /\
  (st' = st \/
   exists n e, In (n, e) l /\ fst st' = Some n /\
               similarity cosine segment_emb e = Some (snd st') /\
               (snd st < snd st')%Q).
Proof.
  induction l as [| [n0 e0] l IH]; intros st; simpl.
  - split; [intros ? ? ? [] |]. split; [apply Qle_refl | left; reflexivity].
  - set (st1 := identify_step cosine segment_emb st (n0, e0)).
    destruct (IH st1) as (Hmax & Hle & Hbest).
    assert (Hstep : (snd st <= snd st1)%Q /\
                    (forall s, similarity cosine segment_emb e0 = Some s ->
                               (s <= snd st1)%Q) /\
                    (st1 = st \/
                     (fst st1 = Some n0 /\
                      similarity cosine segment_emb e0 = Some (snd st1) /\
                      (snd st < snd st1)%Q))).
    { unfold st1, identify_step. simpl.
      destruct (similarity cosine segment_emb e0) as [sim |].
      - destruct (Qlt_bool (snd st) sim) eqn:E.
        + apply Qlt_bool_iff in E. simpl. split; [apply Qlt_le_weak, E |].
          split; [intros s [= <-]; apply Qle_refl |].
          right. repeat split. exact E.
        + split; [apply Qle_refl |].
          split; [| left; reflexivity].
          intros s [= <-]. apply Qnot_lt_le. intros Hlt.
          apply Qlt_bool_iff in Hlt. congruence.
      - split; [apply Qle_refl |]. split; [discriminate | left; reflexivity]. }
    destruct Hstep as (Hle1 & Hmax1 & Hbest1).
    split; [| split].
    + intros n e s [[= <- <-] | Hin] Hs.
      * eapply Qle_trans; [apply Hmax1, Hs | exact Hle].
      * eapply Hmax; eassumption.
    + eapply Qle_trans; eassumption.
    + destruct Hbest as [-> | (n & e & Hin & Hf & Hs & Hlt)].
      * destruct Hbest1 as [-> | (Hf & Hs & Hlt)]; [left; reflexivity |].
        right. exists n0, e0. repeat split; try assumption. left. reflexivity.
      * right. exists n, e. repeat split; try assumption.
        -- right. exact Hin.
        -- eapply Qle_lt_trans; eassumption.
Qed.

(** For a threshold above the initial best similarity -1 the identifier
    returns the first name of the best similarity when that reaches the
    threshold, and UNKNOWN when no similarity does. *)
Theorem identify_speaker_above_sentinel (segment_emb : embedding)
    (voiceprints : list (string * embedding)) (threshold : Q) :
  voiceprints <> [] -> (-1 < threshold)%Q ->
  (exists n e s,
      In (n, e) voiceprints /\
      similarity cosine segment_emb e = Some s /\
      (forall n' e' s', In (n', e') voiceprints ->
                        similarity cosine segment_emb e' = Some s' ->
                        (s' <= s)%Q) /\
      (threshold <= s)%Q /\
      identify_speaker cosine segment_emb voiceprints threshold = Some n)
  \/
  ((forall n' e' s', In (n', e') voiceprints ->
                     similarity cosine segment_emb e' = Some s' ->
                     (s' < threshold)%Q) /\
   identify_speaker cosine segment_emb voiceprints threshold = Some UNKNOWN).
Proof.
  intros Hne Hthr.
  destruct (identify_loop segment_emb voiceprints (None, (-1)%Q))
    as (Hmax & _ & Hbest).
  unfold identify_speaker.
  destruct voiceprints as [| entry rest]; [congruence |].
  set (l := entry :: rest) in *.
  set (st := fold_left (identify_step cosine segment_emb) l (None, (-1)%Q)) in *.
  destruct Hbest as [Hst | (n & e & Hin & Hf & Hs & Hlt)].
  - right. rewrite Hst in *. simpl in *.
    assert (E : Qle_bool threshold (-1) = false).
    { destruct (Qle_bool threshold (-1)) eqn:E; [| reflexivity].
      apply Qle_bool_iff in E. exfalso. exact (Qlt_not_le _ _ Hthr E). }
    rewrite E. split; [| reflexivity].
    intros n' e' s' Hin Hs'. eapply Qle_lt_trans; [| exact Hthr].
    eapply Hmax; eassumption.
  - destruct (Qle_bool threshold (snd st)) eqn:E.
    + left. exists n, e, (snd st). apply Qle_bool_iff in E.
      repeat split; assumption.
    + right. split; [| reflexivity].
      intros n' e' s' Hin' Hs'. eapply Qle_lt_trans; [eapply Hmax; eassumption |].
      apply Qnot_le_lt. intros Hle. apply Qle_bool_iff in Hle. congruence.
Qed.

(** A segment without embedding is labelled UNKNOWN. *)
Lemma segment_speaker_absent (voiceprints : list (string * embedding))
    (threshold : Q) :
  segment_speaker cosine None voiceprints threshold = Some UNKNOWN.
Proof. reflexivity. Qed.

(** C10: with an empty library the identifier returns UNKNOWN for every
    embedding and threshold, so every segment of a run is labelled
    UNKNOWN, with or without an embedding. *)
Theorem empty_library_gives_unknown (segment_emb : embedding) (threshold : Q)
    (embeddings : list (option embedding)) :
  identify_speaker cosine segment_emb [] threshold = Some UNKNOWN /\
  map (fun e => segment_speaker cosine e [] threshold) embeddings
  = map (fun _ => Some UNKNOWN) embeddings.
Proof.
  split; [reflexivity |].
  apply map_ext. intros [e |]; reflexivity.
Qed.
End IdentifierFacts.

Lemma identify_speaker_above_sentinel_example :
  identify_speaker cosine_1d 5 [("Alice", 2); ("Bob", -3)]
    DEFAULT_SIMILARITY_THRESHOLD = Some "Alice" /\
  identify_speaker cosine_1d 5 [("Bob", -3)]
    DEFAULT_SIMILARITY_THRESHOLD = Some UNKNOWN.
Proof. split; reflexivity. Qed.

(** C6 fails at a threshold of -1 and a library whose only voiceprint is
    opposite to the segment embedding: the similarity is -1, the maximum
    reaches the threshold, and the identifier returns [best_speaker] while
    it is still [None], neither the name nor UNKNOWN. *)
Theorem identify_speaker_sentinel_returns_none :
  similarity cosine_1d 1 (-1) = Some ((1 - 2)%Q) /\
  Qle_bool (-1) (1 - 2) = true /\
  identify_speaker cosine_1d 1 [("A", -1)] (-1) = None.
Proof. repeat split. Qed.

(** ** Voiceprint selection *)

(** C8 fails when the library has no voiceprint of the judge: the roster
    of a configuration always holds the judge, so an empty intersection
    means the judge is missing from the library, and the filter raises
    [KeyError] before the fallback is reached. *)
Theorem select_voiceprints_empty_intersection_raises :
  select_voiceprints [("张三", 1)] ["李四"; JUDGE] = Raises (KeyError JUDGE).
Proof. reflexivity. Qed.

Lemma fold_keep_candidate_disjoint {embedding : Type}
    (voiceprints : list (string * embedding)) (candidates : list string) :
  (forall c, In c candidates -> dict_get voiceprints c = None) ->
  forall filtered,
    fold_left (keep_candidate voiceprints) candidates filtered = filtered.
Proof.
  induction candidates as [| c t IH]; intros Hnone filtered; [reflexivity |].
  simpl. unfold keep_candidate at 2. rewrite (Hnone c) by (left; reflexivity).
  apply IH. intros c' Hc'. apply Hnone. right. exact Hc'.
Qed.

(** With a non-empty roster of which no member has a voiceprint, the
    selection never is the whole library: it raises when the judge has no
    voiceprint and is the judge's voiceprint alone otherwise. *)
Lemma select_voiceprints_never_falls_back {embedding : Type}
    (all_voiceprints : list (string * embedding)) (candidates : list string) :
  all_voiceprints <> [] -> candidates <> [] ->
  (forall c, In c candidates -> dict_get all_voiceprints c = None) ->
  select_voiceprints all_voiceprints candidates =
  match dict_get all_voiceprints JUDGE with
  | Some v => Returns [(JUDGE, v)]
  | None => Raises (KeyError JUDGE)
  end.
Proof.
  intros Hall Hcand Hnone. unfold select_voiceprints.
  destruct all_voiceprints as [| entry rest]; [congruence |].
  unfold filter_voiceprints_by_candidates.
  destruct candidates as [| c t]; [congruence |].
  rewrite (fold_keep_candidate_disjoint _ _ Hnone).
  destruct (dict_get (entry :: rest) JUDGE); reflexivity.
Qed.

(** ** The time-marker parser *)

Lemma is_colon_not_space (c : ascii) : is_colon c = true -> is_space c = false.
Proof.
  unfold is_colon. intros Hc. apply Ascii.eqb_eq in Hc. subst c. reflexivity.
Qed.

Lemma rstrip_cons (c : ascii) (t : string) :
  rstrip (String c t) =
  match rstrip t with
  | EmptyString => if is_space c then EmptyString else String c EmptyString
  | t' => String c t'
  end.
Proof. reflexivity. Qed.

Lemma rstrip_cons_nonspace (c : ascii) (t : string) :
  is_space c = false -> rstrip (String c t) = String c (rstrip t).
Proof.
  intros Hc. rewrite rstrip_cons, Hc. destruct (rstrip t); reflexivity.
Qed.

Lemma has_colon_lstrip (s : string) : has_colon (lstrip s) = has_colon s.
Proof.
  induction s as [| c t IH]; [reflexivity |]. simpl.
  destruct (is_space c) eqn:Es; [| reflexivity].
  rewrite IH. destruct (is_colon c) eqn:Ec; [| reflexivity].
  apply is_colon_not_space in Ec. congruence.
Qed.

Lemma has_colon_rstrip (s : string) : has_colon (rstrip s) = has_colon s.
Proof.
  induction s as [| c t IH]; [reflexivity |].
  rewrite rstrip_cons. destruct (rstrip t) as [| c' t'] eqn:Er.
  - simpl in IH. simpl. rewrite <- IH.
    destruct (is_space c) eqn:Es; simpl.
    + destruct (is_colon c) eqn:Ec; [| reflexivity].
      apply is_colon_not_space in Ec. congruence.
    + reflexivity.
  - change (has_colon (String c (String c' t')))
      with (is_colon c || has_colon (String c' t')).
    rewrite IH. reflexivity.
Qed.

Lemma has_colon_strip (s : string) : has_colon (strip s) = has_colon s.
Proof. unfold strip. rewrite has_colon_rstrip. apply has_colon_lstrip. Qed.

Lemma rstrip_app (x y : string) :
  rstrip y <> EmptyString -> rstrip (x ++ y) = (x ++ rstrip y)%string.
Proof.
  intros Hy. induction x as [| c x IH]; [reflexivity |].
  simpl String.append. rewrite rstrip_cons, IH.
  destruct (x ++ rstrip y)%string eqn:E; [| reflexivity].
  destruct x; simpl in E; [congruence | discriminate].
Qed.

Lemma lstrip_app (x : string) (c : ascii) (y : string) :
  is_space c = false ->
  lstrip (x ++ String c y) = (lstrip x ++ String c y)%string.
Proof.
  intros Hc. induction x as [| a x IH]; simpl.
  - rewrite Hc. reflexivity.
  - destruct (is_space a); [exact IH | reflexivity].
Qed.

Lemma lstrip_idempotent (s : string) : lstrip (lstrip s) = lstrip s.
Proof.
  induction s as [| c t IH]; [reflexivity |]. simpl.
  destruct (is_space c) eqn:Es; [exact IH |]. simpl. rewrite Es. reflexivity.
Qed.

Lemma rstrip_idempotent (s : string) : rstrip (rstrip s) = rstrip s.
Proof.
  induction s as [| c t IH]; [reflexivity |].
  rewrite rstrip_cons. destruct (rstrip t) as [| c' t'] eqn:Er.
  - destruct (is_space c) eqn:Es; [reflexivity |].
    rewrite rstrip_cons. simpl. rewrite Es. reflexivity.
  - rewrite rstrip_cons, IH. reflexivity.
Qed.

Lemma lstrip_rstrip (s : string) : lstrip (rstrip s) = rstrip (lstrip s).
Proof.
  induction s as [| c t IH]; [reflexivity |].
  rewrite rstrip_cons. simpl lstrip at 2.
  destruct (is_space c) eqn:Es.
  - destruct (rstrip t) as [| c' t'] eqn:Er.
    + rewrite <- IH. reflexivity.
    + rewrite <- IH. simpl. rewrite Es. reflexivity.
  - rewrite rstrip_cons.
    destruct (rstrip t); simpl; rewrite Es; reflexivity.
Qed.


Lemma strip_lstrip (s : string) : strip (lstrip s) = strip s.
Proof. unfold strip. rewrite lstrip_idempotent. reflexivity. Qed.

Lemma strip_rstrip (s : string) : strip (rstrip s) = strip s.
Proof.
  unfold strip. rewrite lstrip_rstrip, rstrip_idempotent. reflexivity.
Qed.

Lemma py_int_lstrip (s : string) : py_int (lstrip s) = py_int s.
Proof. unfold py_int. rewrite strip_lstrip. reflexivity. Qed.

Lemma py_int_rstrip (s : string) : py_int (rstrip s) = py_int s.
Proof. unfold py_int. rewrite strip_rstrip. reflexivity. Qed.


Lemma split_colon_no_colon (s : string) :
  has_colon s = false -> split_colon s = [s].
Proof.
  induction s as [| c t IH]; [reflexivity |]. simpl.
  intros Hc. apply orb_false_iff in Hc. destruct Hc as [Hc Ht].
  rewrite Hc, (IH Ht). reflexivity.
Qed.

Lemma split_colon_app (x y : string) :
  has_colon x = false ->
  split_colon (x ++ String ":" y) = x :: split_colon y.
Proof.
  induction x as [| c x IH]; [reflexivity |]. simpl.
  intros Hc. apply orb_false_iff in Hc. destruct Hc as [Hc Hx].
  rewrite Hc, (IH Hx). reflexivity.
Qed.

Lemma has_colon_app (x y : string) : has_colon (x ++ String ":" y) = true.
Proof.
  induction x as [| c x IH]; [reflexivity |]. simpl. rewrite IH.
  apply orb_true_r.
Qed.

(** The stripped two-part and three-part markers. *)
Lemma strip_two_parts (a b : string) :
  strip (a ++ ":" ++ b) = (lstrip a ++ String ":" (rstrip b))%string.
Proof.
  unfold strip. simpl String.append.
  rewrite lstrip_app by reflexivity.
  rewrite rstrip_app; rewrite rstrip_cons_nonspace by reflexivity;
    [reflexivity | discriminate].
Qed.


Lemma parse_two_parts (a b : string) (m s : Z) :
  has_colon a = false -> has_colon b = false ->
  py_int a = Some m -> py_int b = Some s ->
  parse_time_to_ms (a ++ ":" ++ b) DEFAULT_FPS
  = Returns (Some ((m * 60 + s) * 1000)).
Proof.
  intros Ha Hb Hm Hs. unfold parse_time_to_ms, parse_clock.
  rewrite strip_two_parts, has_colon_app.
  rewrite split_colon_app by (rewrite has_colon_lstrip; exact Ha).
  rewrite split_colon_no_colon by (rewrite has_colon_rstrip; exact Hb).
  rewrite py_int_lstrip, py_int_rstrip, Hm, Hs. reflexivity.
Qed.




Lemma digit_not_separator (c : ascii) (d : Z) :
  digit_value c = Some d ->
  is_colon c = false /\ (c =? ".")%char = false.
Proof.
  intros Hd. split.
  - destruct (is_colon c) eqn:E; [| reflexivity].
    unfold is_colon in E. apply Ascii.eqb_eq in E. subst c. discriminate.
  - destruct (c =? ".")%char eqn:E; [| reflexivity].
    apply Ascii.eqb_eq in E. subst c. discriminate.
Qed.

Lemma digit_not_letter (c : ascii) (d : Z) :
  digit_value c = Some d ->
  is_exponent_mark c = false /\ lower_char c = c.
Proof.
  destruct c as [[] [] [] [] [] [] [] []]; try discriminate;
    intros _; split; reflexivity.
Qed.

Lemma parse_digits_plain (s : string) : forall acc after_digit n,
  parse_digits acc after_digit s = Some n ->
  has_colon s = false /\ split_point s = (s, None) /\
  split_exponent s = (s, None).
Proof.
  induction s as [| c t IH]; intros acc after_digit n Hn.
  - repeat split.
  - simpl in Hn.
    assert (Hsep : is_colon c = false /\ (c =? ".")%char = false /\
                   is_exponent_mark c = false /\
                   exists acc' b', parse_digits acc' b' t = Some n).
    { destruct (digit_value c) as [d |] eqn:Ed.
      - destruct (digit_not_separator c d Ed) as [H1 H2].
        destruct (digit_not_letter c d Ed) as [H3 _].
        split; [exact H1 | split; [exact H2 | split; [exact H3 | eauto]]].
      - destruct (c =? "_")%char eqn:Eu; simpl in Hn; [| discriminate].
        destruct after_digit; simpl in Hn; [| discriminate].
        apply Ascii.eqb_eq in Eu. subst c.
        split; [reflexivity | split; [reflexivity | split; [reflexivity | eauto]]]. }
    destruct Hsep as (Hc & Hp & He & acc' & b' & Ht).
    destruct (IH _ _ _ Ht) as (IHc & IHp & IHe).
    simpl. rewrite Hc, Hp, He, IHc, IHp, IHe. repeat split.
Qed.



Lemma split_sign_colon (s : string) :
  has_colon (snd (split_sign s)) = has_colon s.
Proof.
  destruct s as [| [[] [] [] [] [] [] [] []] t]; reflexivity.
Qed.


Lemma py_int_no_colon (t : string) (n : Z) :
  py_int t = Some n -> has_colon t = false.
Proof.
  unfold py_int. intros Hn.
  rewrite <- has_colon_strip, <- split_sign_colon.
  destruct (split_sign (strip t)) as [sign body]. simpl.
  destruct (parse_digits 0 false body) as [k |] eqn:Ek; [| discriminate].
  apply (parse_digits_plain _ _ _ _ Ek).
Qed.










(** What [float] reads beyond plain decimals, and what becomes of it:
    an exponent, an underscore between digits, a numeral too large for
    binary64 and the words [inf] and [nan]. *)
Example parse_time_to_ms_float_forms :
  parse_time_to_ms "1e3" DEFAULT_FPS = Returns (Some 33333) /\
  parse_time_to_ms " 1_0.5E+1 " DEFAULT_FPS = Returns (Some 3500) /\
  parse_time_to_ms ".5" DEFAULT_FPS = Returns (Some 16) /\
  parse_time_to_ms "-150" DEFAULT_FPS = Returns (Some (-5000)) /\
  parse_time_to_ms "nan" DEFAULT_FPS = Returns None /\
  parse_time_to_ms "-Infinity" DEFAULT_FPS = Raises OverflowError /\
  parse_time_to_ms "1e400" DEFAULT_FPS = Raises OverflowError /\
  parse_time_to_ms "1e306" DEFAULT_FPS = Raises OverflowError /\
  parse_time_to_ms "150" 0 = Raises ZeroDivisionError /\
  parse_time_to_ms "1:30" 0 = Returns (Some 90000) /\
  parse_time_to_ms "1e" DEFAULT_FPS = Returns None /\
  parse_time_to_ms "1_" DEFAULT_FPS = Returns None /\
  parse_time_to_ms "." DEFAULT_FPS = Returns None /\
  parse_time_to_ms "0x10" DEFAULT_FPS = Returns None /\
  parse_time_to_ms "1:2:3:4" DEFAULT_FPS = Returns None /\
  parse_time_to_ms "" DEFAULT_FPS = Returns None.
Proof. vm_compute. repeat split; reflexivity. Qed.

(** ** Extras: [minsec] and the parser *)

Lemma parse_digits_string_of_uint (d : Decimal.uint) : forall acc b,
  d <> Decimal.Nil \/ b = true ->
  parse_digits acc b (NilEmpty.string_of_uint d) = Some (uint_value acc d).
Proof.
  induction d; intros acc b Hb; simpl;
    try (apply IHd; right; reflexivity).
  destruct Hb as [Hd | ->]; [congruence | reflexivity].
Qed.

Lemma of_uint_acc_value (d : Decimal.uint) : forall p,
  Zpos (Pos.of_uint_acc d p) = uint_value (Zpos p) d.
Proof.
  induction d; intros p; cbn [Pos.of_uint_acc uint_value]; try (rewrite IHd; f_equal; lia).
  all: try reflexivity.
Qed.

Lemma of_uint_value (d : Decimal.uint) : Z.of_N (Pos.of_uint d) = uint_value 0 d.
Proof.
  induction d; simpl; try (rewrite of_uint_acc_value; reflexivity).
  - reflexivity.
  - exact IHd.
Qed.

Lemma no_space_string_of_uint (d : Decimal.uint) :
  no_space (NilEmpty.string_of_uint d) = true.
Proof. induction d; simpl; try exact IHd. reflexivity. Qed.

Lemma rstrip_no_space (s : string) : no_space s = true -> rstrip s = s.
Proof.
  induction s as [| c t IH]; [reflexivity |]. simpl no_space.
  intros H. apply andb_true_iff in H. destruct H as [Hc Ht].
  apply negb_true_iff in Hc.
  rewrite rstrip_cons_nonspace by exact Hc. rewrite (IH Ht). reflexivity.
Qed.

Lemma strip_no_space (s : string) : no_space s = true -> strip s = s.
Proof.
  intros H. unfold strip.
  assert (Hl : lstrip s = s).
  { destruct s as [| c t]; [reflexivity |]. simpl in *.
    apply andb_true_iff in H. destruct H as [Hc _].
    apply negb_true_iff in Hc. rewrite Hc. reflexivity. }
  rewrite Hl. apply rstrip_no_space, H.
Qed.

Lemma py_int_string_of_uint (d : Decimal.uint) :
  d <> Decimal.Nil ->
  py_int (NilEmpty.string_of_uint d) = Some (Z.of_uint d) /\
  py_int ("0" ++ NilEmpty.string_of_uint d)%string = Some (Z.of_uint d) /\
  py_int ("-" ++ NilEmpty.string_of_uint d)%string = Some (- Z.of_uint d).
Proof.
  intros Hd. unfold py_int, Z.of_uint. rewrite of_uint_value.
  rewrite !strip_no_space
    by (simpl; try apply no_space_string_of_uint).
  repeat split.
  - assert (Hsign : split_sign (NilEmpty.string_of_uint d)
                     = (1, NilEmpty.string_of_uint d))
      by (destruct d; try reflexivity; congruence).
    rewrite Hsign, parse_digits_string_of_uint by (left; exact Hd).
    unfold option_map; f_equal; try lia.
  - cbn [String.append split_sign parse_digits].
    change (digit_value "0") with (Some 0). cbv iota beta.
    change (0 * 10 + 0) with 0.
    rewrite parse_digits_string_of_uint by (right; reflexivity).
    unfold option_map; f_equal; try lia.
  - cbn [String.append split_sign].
    rewrite parse_digits_string_of_uint by (left; exact Hd).
    unfold option_map; f_equal; try lia.
Qed.

Lemma py_int_fmt_02d (z : Z) : py_int (fmt_02d z) = Some z.
Proof.
  unfold fmt_02d.
  assert (Hz : exists d, d <> Decimal.Nil /\
             ((NilZero.string_of_int (Z.to_int z) = NilEmpty.string_of_uint d /\ Z.of_uint d = z /\ 0 <= z)
              \/ (NilZero.string_of_int (Z.to_int z) = ("-" ++ NilEmpty.string_of_uint d)%string /\ - Z.of_uint d = z /\ z < 0))).
  { destruct z as [| p | p].
    - exists (Decimal.D0 Decimal.Nil). split; [discriminate |]. left. repeat split. lia.
    - exists (Pos.to_uint p). split; [apply Unsigned.to_uint_nonnil |]. left.
      pose proof (Unsigned.to_uint_nonnil p) as Hn.
      repeat split; try lia.
      + simpl. destruct (Pos.to_uint p); try reflexivity. congruence.
      + unfold Z.of_uint. rewrite Unsigned.of_to. reflexivity.
    - exists (Pos.to_uint p). split; [apply Unsigned.to_uint_nonnil |]. right.
      pose proof (Unsigned.to_uint_nonnil p) as Hn.
      repeat split; try lia.
      + simpl. destruct (Pos.to_uint p); try reflexivity. congruence.
      + unfold Z.of_uint. rewrite Unsigned.of_to. reflexivity. }
  destruct Hz as (d & Hd & [(Hs & Hv & Hsign) | (Hs & Hv & Hsign)]);
    rewrite Hs; destruct (py_int_string_of_uint d Hd) as (H1 & H2 & H3).
  - destruct ((0 <=? z) && (z <? 10)); [rewrite H2 | rewrite H1]; congruence.
  - replace ((0 <=? z) && (z <? 10)) with false by
      (symmetry; apply andb_false_iff; left; apply Z.leb_gt; lia).
    rewrite H3. congruence.
Qed.

(** X1: a time written by [minsec] is read back by [parse_time_to_ms] as
    the same time cut to whole seconds, for every integer, negative ones
    included. *)
Theorem minsec_parse (ms : Z) :
  parse_time_to_ms (minsec ms) DEFAULT_FPS
  = Returns (Some (ms / 1000 * 1000)).
Proof.
  unfold minsec.
  rewrite (parse_two_parts _ _ (ms / 1000 / 60) ((ms / 1000) mod 60));
    try apply py_int_fmt_02d;
    try (eapply py_int_no_colon; apply py_int_fmt_02d).
  do 2 f_equal. pose proof (Z.div_mod (ms / 1000) 60). lia.
Qed.

(** ** Extras: what the consolidation keeps *)

Lemma append_nil_r (s : string) : (s ++ "")%string = s.
Proof. induction s as [| c t IH]; simpl; [| rewrite IH]; reflexivity. Qed.

Lemma append_assoc (a b c : string) :
  ((a ++ b) ++ c)%string = (a ++ (b ++ c))%string.
Proof. induction a as [| x t IH]; simpl; [| rewrite IH]; reflexivity. Qed.

Lemma concat_cons (x : string) (l : list string) :
  String.concat "" (x :: l) = (x ++ String.concat "" l)%string.
Proof. destruct l; simpl; [rewrite append_nil_r |]; reflexivity. Qed.


Lemma last_default {B : Type} (l : list B) (d d' : B) :
  l <> [] -> last l d = last l d'.
Proof.
  induction l as [| x t IH]; [congruence |]. intros _.
  destruct t as [| y t']; [reflexivity |].
  change (last (x :: y :: t') d) with (last (y :: t') d).
  change (last (x :: y :: t') d') with (last (y :: t') d').
  apply IH. discriminate.
Qed.

Lemma last_cons {B : Type} (x : B) (l : list B) (d : B) :
  last (x :: l) d = last l x.
Proof.
  destruct l as [| y t]; [reflexivity |].
  change (last (x :: y :: t) d) with (last (y :: t) d).
  apply last_default. discriminate.
Qed.

Section ConsolidationFacts.
Context {A : Type} `{SegmentDict A}.




Lemma flush_first_start (l : list A) : forall r,
  exists o t, flush r l = o :: t /\ start_ms o = current_start r.
Proof.
  induction l as [| seg l IH]; intros r; simpl.
  - exists (emit r), []. split; reflexivity.
  - destruct (get_speaker seg =? current_speaker r)%string.
    + destruct (IH (extend_run r seg)) as (o & t & Ho & Hs).
      exists o, t. split; assumption.
    + exists (emit r), (flush (open_run seg) l). split; reflexivity.
Qed.


Lemma flush_chronological (l : list A) : forall r,
  chronological ((current_start r, current_end r) :: times l) ->
  chronological (times (flush r l)).
Proof.
  induction l as [| seg l IH]; intros r Hc; simpl flush.
  - simpl in *. tauto.
  - simpl in Hc. destruct Hc as (Hr & Hnext & Hseg & Hnext' & Hl).
    destruct (get_speaker seg =? current_speaker r)%string.
    + apply IH. simpl. split; [lia |]. split; [exact Hnext' | exact Hl].
    + destruct (flush_first_start l (open_run seg)) as (o & t & Ho & Hs).
      assert (IHo : chronological (times (flush (open_run seg) l))).
      { apply IH. simpl. tauto. }
      rewrite Ho in *. simpl in Hs.
      change (chronological ((current_start r, current_end r)
                :: (start_ms o, end_ms o) :: times t)).
      change (chronological ((start_ms o, end_ms o) :: times t)) in IHo.
      split; [exact Hr |]. split; [rewrite Hs; exact Hnext | exact IHo].
Qed.

Lemma merge_chronological (X : list A) :
  chronological (times X) ->
  chronological (times (merge_consecutive_same_speaker X)) /\
  Forall (fun m => 0 <= duration_ms m) (merge_consecutive_same_speaker X).
Proof.
  intros Hc.
  assert (Hout : chronological (times (merge_consecutive_same_speaker X))).
  { destruct X as [| seg l]; [exact I |].
    rewrite merge_cons. apply flush_chronological. exact Hc. }
  split; [exact Hout |].
  pose proof (merge_well_formed X) as Hwf.
  induction (merge_consecutive_same_speaker X) as [| m t IH];
    [constructor |].
  simpl in Hout. destruct Hout as (Hm & _ & Ht).
  constructor.
  - apply Forall_inv in Hwf. destruct Hwf as (_ & _ & Hd). rewrite Hd. lia.
  - apply IH; [exact Ht | apply Forall_inv_tail in Hwf; exact Hwf].
Qed.

(** X3: when the input is in chronological order (every segment ends
    no earlier than it starts and no later than the next one starts), so
    is the output of the merger, and every duration it computes is
    non-negative. *)
Theorem merge_keeps_order (X : list A) :
  chronological (times X) ->
  chronological (times (merge_consecutive_same_speaker X)) /\
  Forall (fun m => 0 <= duration_ms m) (merge_consecutive_same_speaker X).
Proof. intros; eapply merge_chronological; eassumption. Qed.
End ConsolidationFacts.

Lemma map_relabel_keeps {B : Type} (g : MergedSegment -> B)
    (f : nat -> MergedSegment -> MergedSegment) (l : list MergedSegment) :
  (forall i x, g (f i x) = g x) ->
  forall k, map g (map (fun '(i, x) => f i x) (enumerate_from k l)) = map g l.
Proof.
  intros Hg. induction l as [| x t IH]; intros k; simpl; [reflexivity |].
  rewrite Hg, IH. reflexivity.
Qed.

Lemma corrected_keeps (thr : Z) (l : list MergedSegment) (i : nat)
    (x : MergedSegment) :
  text (corrected thr l i x) = text x /\
  start_ms (corrected thr l i x) = start_ms x /\
  end_ms (corrected thr l i x) = end_ms x /\
  start (corrected thr l i x) = start x /\
  end_ (corrected thr l i x) = end_ x /\
  display_speaker (corrected thr l i x) = display_speaker x /\
  duration_ms (corrected thr l i x) = duration_ms x.
Proof.
  unfold corrected. destruct (short_and_known thr x); [| repeat split].
  destruct (offered_speaker (predecessor l i));
    [| destruct (offered_speaker (successor l i))]; repeat split.
Qed.

Lemma relabel_pass_keeps {B : Type} (g : MergedSegment -> B)
    (l : list MergedSegment) (thr : Z) :
  (forall i x, g (corrected thr l i x) = g x) ->
  map g (relabel_pass l thr) = map g l.
Proof.
  intros Hg. unfold relabel_pass, enumerate. apply map_relabel_keeps.
  intros i x. rewrite relabel_segment_corrected. apply Hg.
Qed.

Lemma reflush_text (l : list MergedSegment) : forall cur,
  all_text (reflush cur l) = (text cur ++ all_text l)%string.
Proof.
  unfold all_text. induction l as [| n l IH]; intros cur; simpl reflush.
  - simpl. rewrite append_nil_r. reflexivity.
  - simpl map. rewrite concat_cons.
    destruct (speaker cur =? speaker n)%string.
    + rewrite IH. simpl. rewrite append_assoc. reflexivity.
    + simpl map. rewrite concat_cons, IH. reflexivity.
Qed.

Lemma reflush_first (l : list MergedSegment) : forall cur,
  exists o t, reflush cur l = o :: t /\ start_ms o = start_ms cur /\
              speaker o = speaker cur.
Proof.
  induction l as [| n l IH]; intros cur; simpl.
  - exists cur, []. repeat split.
  - destruct (speaker cur =? speaker n)%string.
    + destruct (IH (absorb cur n)) as (o & t & Ho & Hs & Hsp).
      exists o, t. repeat split; assumption.
    + exists cur, (reflush n l). repeat split.
Qed.

Lemma reflush_last_end (l : list MergedSegment) : forall cur d,
  last (map end_ms (reflush cur l)) d = last (map end_ms l) (end_ms cur).
Proof.
  induction l as [| n l IH]; intros cur d; simpl reflush.
  - reflexivity.
  - destruct (speaker cur =? speaker n)%string.
    + rewrite IH. simpl map. rewrite last_cons. reflexivity.
    + simpl map. rewrite !last_cons, IH. reflexivity.
Qed.

Lemma remerge_text_span (l : list MergedSegment) :
  all_text (remerge l) = all_text l /\ span (remerge l) = span l.
Proof.
  destruct l as [| first rest]; [split; reflexivity |].
  rewrite remerge_cons. split.
  - rewrite reflush_text. unfold all_text. simpl map.
    rewrite concat_cons. reflexivity.
  - destruct (reflush_first rest first) as (o & t & Ho & Hs & _).
    unfold span. rewrite Ho. cbv iota beta. rewrite <- Ho.
    change (get_start_ms o) with (start_ms o). rewrite Hs.
    change (@get_end_ms MergedSegment _) with end_ms.
    rewrite reflush_last_end. simpl map. rewrite last_cons. reflexivity.
Qed.

Lemma span_map (l l' : list MergedSegment) :
  map start_ms l = map start_ms l' -> map end_ms l = map end_ms l' ->
  span l = span l'.
Proof.
  intros Hs He. unfold span.
  change (@get_end_ms MergedSegment _) with end_ms.
  change (@get_start_ms MergedSegment _) with start_ms.
  destruct l as [| x t], l' as [| x' t']; try discriminate; [reflexivity |].
  rewrite He. simpl in Hs, He. injection Hs as Hs _. injection He as He _.
  rewrite Hs, He. reflexivity.
Qed.

Lemma merge_keeps_order_witness :
  chronological (times scenario3) /\
  chronological (times (merge_consecutive_same_speaker scenario3)).
Proof.
  assert (Hc : chronological (times scenario3)) by (simpl; lia).
  split; [exact Hc | exact (proj1 (merge_keeps_order scenario3 Hc))].
Defined.

(** X4: the corrector loses nothing either: relabelling and re-merging
    keep the concatenated text and the time covered. *)
Theorem corrector_keeps_text_and_span (l : list MergedSegment) (m : Seconds) :
  all_text (filter_short_speaker_segments l m) = all_text l /\
  span (filter_short_speaker_segments l m) = span l.
Proof.
  unfold filter_short_speaker_segments.
  destruct (List.length l <=? 1)%nat; [split; reflexivity |].
  destruct (remerge_text_span (relabel_pass l (min_duration_threshold m)))
    as [Ht Hs].
  rewrite Ht, Hs. split.
  - unfold all_text. f_equal.
    apply (relabel_pass_keeps text). intros i x. apply corrected_keeps.
  - apply span_map; [apply (relabel_pass_keeps start_ms)
                    | apply (relabel_pass_keeps end_ms)];
      intros i x; apply corrected_keeps.
Qed.

Lemma reflush_chronological (l : list MergedSegment) : forall cur,
  chronological (times (cur :: l)) -> chronological (times (reflush cur l)).
Proof.
  induction l as [| n l IH]; intros cur Hc; simpl reflush.
  - exact Hc.
  - change (chronological ((start_ms cur, end_ms cur)
              :: (start_ms n, end_ms n) :: times l)) in Hc.
    destruct Hc as (Hcur & Hnext & Hn).
    destruct (speaker cur =? speaker n)%string.
    + apply IH.
      change (chronological ((start_ms cur, end_ms n) :: times l)).
      change (chronological ((start_ms n, end_ms n) :: times l)) in Hn.
      destruct Hn as (Hn1 & Hn2 & Hn3).
      split; [lia |]. split; assumption.
    + destruct (reflush_first l n) as (o & t & Ho & Hs & _).
      specialize (IH n Hn). rewrite Ho in *.
      change (chronological ((start_ms cur, end_ms cur)
                :: (start_ms o, end_ms o) :: times t)).
      change (chronological ((start_ms o, end_ms o) :: times t)) in IH.
      split; [exact Hcur |]. split; [rewrite Hs; exact Hnext | exact IH].
Qed.

Lemma times_combine (l : list MergedSegment) :
  times l = combine (map start_ms l) (map end_ms l).
Proof.
  induction l as [| x t IH]; [reflexivity |].
  change (times (x :: t)) with ((start_ms x, end_ms x) :: times t).
  rewrite IH. reflexivity.
Qed.

Lemma times_map (l l' : list MergedSegment) :
  map start_ms l = map start_ms l' -> map end_ms l = map end_ms l' ->
  times l = times l'.
Proof.
  intros Hs He. rewrite !times_combine, Hs, He. reflexivity.
Qed.

Lemma filter_short_chronological (l : list MergedSegment) (m : Seconds) :
  chronological (times l) ->
  chronological (times (filter_short_speaker_segments l m)).
Proof.
  intros Hc. unfold filter_short_speaker_segments.
  destruct (List.length l <=? 1)%nat; [exact Hc |].
  assert (Ht : times (relabel_pass l (min_duration_threshold m)) = times l).
  { apply times_map; [apply (relabel_pass_keeps start_ms)
                     | apply (relabel_pass_keeps end_ms)];
      intros i x; apply corrected_keeps. }
  destruct (relabel_pass l (min_duration_threshold m)) as [| first rest].
  - exact I.
  - rewrite remerge_cons. apply reflush_chronological. rewrite Ht. exact Hc.
Qed.

(** X5: the corrector keeps a chronological list chronological. *)
Theorem corrector_keeps_order (l : list MergedSegment) (m : Seconds) :
  chronological (times l) ->
  chronological (times (filter_short_speaker_segments l m)).
Proof. intros; eapply filter_short_chronological; eassumption. Qed.

Lemma corrector_keeps_order_witness :
  chronological (times scenario4) /\
  chronological (times (filter_short_speaker_segments scenario4 three_seconds)).
Proof.
  assert (Hc : chronological (times scenario4)) by (simpl; lia).
  split; [exact Hc | exact (corrector_keeps_order scenario4 three_seconds Hc)].
Defined.







Lemma offered_speaker_in (l : list MergedSegment) (o : option MergedSegment)
    (p : string) :
  (forall x, o = Some x -> In x l) ->
  offered_speaker o = Some p -> In p (map speaker l).
Proof.
  intros Hin Hp. destruct o as [x |]; [| discriminate]. simpl in Hp.
  destruct (truthy (speaker x)); [| discriminate]. injection Hp as <-.
  apply in_map, Hin. reflexivity.
Qed.

Lemma corrected_speaker_in (thr : Z) (l : list MergedSegment) (i : nat)
    (x : MergedSegment) :
  nth_error l i = Some x ->
  In (speaker (corrected thr l i x)) (map speaker l).
Proof.
  intros Hx.
  assert (Hown : In (speaker x) (map speaker l))
    by (apply in_map; eapply nth_error_In, Hx).
  assert (Hpred : forall y, predecessor l i = Some y -> In y l).
  { intros y Hy. destruct i as [| j]; [discriminate |].
    eapply nth_error_In, Hy. }
  assert (Hsucc : forall y, successor l i = Some y -> In y l)
    by (intros y Hy; eapply nth_error_In, Hy).
  unfold corrected. destruct (short_and_known thr x); [| exact Hown].
  destruct (offered_speaker (predecessor l i)) as [p |] eqn:Ep.
  - exact (offered_speaker_in l _ p Hpred Ep).
  - destruct (offered_speaker (successor l i)) as [n |] eqn:En;
      [exact (offered_speaker_in l _ n Hsucc En) | exact Hown].
Qed.

Lemma reflush_speakers (l : list MergedSegment) : forall cur s,
  In s (map speaker (reflush cur l)) -> In s (map speaker (cur :: l)).
Proof.
  induction l as [| n l IH]; intros cur s Hs; simpl reflush in Hs.
  - exact Hs.
  - destruct (speaker cur =? speaker n)%string.
    + apply IH in Hs. simpl in *. tauto.
    + simpl in Hs. destruct Hs as [<- | Hs]; [left; reflexivity |].
      right. apply IH, Hs.
Qed.

(** X6: the corrector never invents a speaker: every speaker of its
    output is the speaker of some segment of its input. *)
Theorem corrector_no_new_speaker (l : list MergedSegment) (m : Seconds) (s : string) :
  In s (map speaker (filter_short_speaker_segments l m)) ->
  In s (map speaker l).
Proof.
  unfold filter_short_speaker_segments.
  destruct (List.length l <=? 1)%nat; [tauto |].
  intros Hs.
  assert (Hrel : In s (map speaker (relabel_pass l (min_duration_threshold m)))).
  { destruct (relabel_pass l (min_duration_threshold m)) as [| first rest];
      [destruct Hs |].
    rewrite remerge_cons in Hs. apply reflush_speakers, Hs. }
  apply in_map_iff in Hrel. destruct Hrel as (y & <- & Hy).
  apply In_nth_error in Hy. destruct Hy as [i Hi].
  rewrite nth_error_relabel_pass in Hi.
  destruct (nth_error l i) as [x |] eqn:Hx; [| discriminate].
  simpl in Hi. injection Hi as <-. rewrite relabel_segment_corrected.
  apply corrected_speaker_in, Hx.
Qed.

Lemma corrector_no_new_speaker_witness :
  In "A" (map speaker (filter_short_speaker_segments scenario4 three_seconds)) /\
  In "A" (map speaker scenario4).
Proof.
  assert (Hin : In "A" (map speaker (filter_short_speaker_segments scenario4 three_seconds)))
    by (vm_compute; left; reflexivity).
  split; [exact Hin | exact (corrector_no_new_speaker scenario4 three_seconds "A" Hin)].
Defined.

Lemma relabel_pass_nothing_short (l : list MergedSegment) (thr : Z) :
  Forall (fun x => short_and_known thr x = false) l ->
  relabel_pass l thr = l.
Proof.
  intros Hl. apply nth_error_ext. intros i.
  rewrite nth_error_relabel_pass.
  destruct (nth_error l i) as [x |] eqn:Hx; [| reflexivity].
  simpl. rewrite relabel_segment_corrected. unfold corrected.
  rewrite Forall_forall in Hl. rewrite (Hl x); [reflexivity |].
  eapply nth_error_In, Hx.
Qed.

Lemma reflush_adjacent_fixed (l : list MergedSegment) : forall cur,
  adjacent_differ (cur :: l) -> reflush cur l = cur :: l.
Proof.
  induction l as [| n l IH]; intros cur Hadj; [reflexivity |].
  destruct Hadj as [Hne Hadj]. simpl reflush.
  destruct (String.eqb_spec (speaker cur) (speaker n)) as [E | _];
    [congruence |].
  rewrite (IH n Hadj). reflexivity.
Qed.

(** X7: on a list whose neighbours differ in speaker and in which no
    segment is both short and known, the corrector changes nothing. *)
Theorem corrector_identity (l : list MergedSegment) (m : Seconds) :
  adjacent_differ l ->
  Forall (fun x => short_and_known (min_duration_threshold m) x = false) l ->
  filter_short_speaker_segments l m = l.
Proof.
  intros Hadj Hl. unfold filter_short_speaker_segments.
  destruct (List.length l <=? 1)%nat; [reflexivity |].
  rewrite relabel_pass_nothing_short by exact Hl.
  destruct l as [| first rest]; [reflexivity |].
  rewrite remerge_cons. apply reflush_adjacent_fixed, Hadj.
Qed.

(** With the argument 2.01 the threshold is 2009 ms, and a segment of
    2009 ms is not short. *)
Lemma corrector_identity_witness :
  adjacent_differ not_short_2009 /\
  min_duration_threshold seconds_2_01 = 2009 /\
  filter_short_speaker_segments not_short_2009 seconds_2_01 = not_short_2009.
Proof.
  assert (Hadj : adjacent_differ not_short_2009)
    by (simpl; repeat split; discriminate).
  split; [exact Hadj |]. split; [reflexivity |].
  apply (corrector_identity not_short_2009 seconds_2_01 Hadj).
  repeat constructor.
Defined.




(** ** Extras: the timeline *)

Section StableSortFacts.
Context {A : Type} (key : A -> Z).

Lemma insert_by_permutation (x : A) (l : list A) :
  Permutation (insert_by key x l) (x :: l).
Proof.
  induction l as [| y t IH]; simpl; [apply Permutation_refl |].
  destruct (key x <=? key y); [apply Permutation_refl |].
  eapply Permutation_trans; [apply perm_skip, IH | apply perm_swap].
Qed.

Lemma sort_by_permutation (l : list A) : Permutation (sort_by key l) l.
Proof.
  induction l as [| x t IH]; simpl; [apply perm_nil |].
  eapply Permutation_trans; [apply insert_by_permutation |].
  apply perm_skip, IH.
Qed.

Lemma insert_by_head (x : A) (l : list A) :
  HdRel (fun a b => key a <= key b) x l -> insert_by key x l = x :: l.
Proof.
  intros Hhd. destruct l as [| y t]; [reflexivity |]. simpl.
  inversion Hhd; subst.
  destruct (Z.leb_spec (key x) (key y)); [reflexivity | lia].
Qed.

Lemma sort_by_sorted_fixed (l : list A) :
  Sorted (fun a b => key a <= key b) l -> sort_by key l = l.
Proof.
  induction 1 as [| x t Hs IH Hhd]; [reflexivity |].
  simpl. rewrite IH. apply insert_by_head, Hhd.
Qed.

Lemma filter_insert_by (P : A -> bool) (x : A) (l : list A) :
  StronglySorted (fun a b => key a <= key b) l ->
  filter P (insert_by key x l)
  = if P x then insert_by key x (filter P l) else filter P l.
Proof.
  induction 1 as [| y t Hs IH Hall]; simpl.
  - destruct (P x); reflexivity.
  - destruct (Z.leb_spec (key x) (key y)) as [Hle | Hgt].
    + simpl. destruct (P x) eqn:Ex; [| reflexivity].
      destruct (P y) eqn:Ey.
      * simpl. destruct (Z.leb_spec (key x) (key y)); [reflexivity | lia].
      * symmetry. apply insert_by_head.
        destruct (filter P t) as [| z t'] eqn:Ef; constructor.
        assert (Hz : In z (filter P t)) by (rewrite Ef; left; reflexivity).
        apply filter_In in Hz. destruct Hz as [Hz _].
        rewrite Forall_forall in Hall. specialize (Hall z Hz). lia.
    + simpl. rewrite IH. destruct (P y) eqn:Ey, (P x) eqn:Ex; try reflexivity.
      simpl. destruct (Z.leb_spec (key x) (key y)); [lia | reflexivity].
Qed.

Lemma sort_by_strongly_sorted (l : list A) :
  StronglySorted (fun a b => key a <= key b) (sort_by key l).
Proof.
  apply Sorted_StronglySorted; [| apply sort_by_sorted].
  intros a b c Hab Hbc. lia.
Qed.

Lemma filter_sort_by (P : A -> bool) (l : list A) :
  filter P (sort_by key l) = sort_by key (filter P l).
Proof.
  induction l as [| x t IH]; [reflexivity |].
  simpl sort_by. rewrite filter_insert_by by apply sort_by_strongly_sorted.
  simpl filter. destruct (P x); rewrite IH; reflexivity.
Qed.
End StableSortFacts.

Lemma filter_all {A : Type} (P : A -> bool) (l : list A) :
  Forall (fun x => P x = true) l -> filter P l = l.
Proof.
  induction 1 as [| x t Hx Ht IH]; simpl; [| rewrite Hx, IH]; reflexivity.
Qed.

Lemma filter_none {A : Type} (P : A -> bool) (l : list A) :
  Forall (fun x => P x = false) l -> filter P l = [].
Proof.
  induction 1 as [| x t Hx Ht IH]; simpl; [| rewrite Hx, IH]; reflexivity.
Qed.

Lemma Sorted_map {A B : Type} (f : A -> B) (R : B -> B -> Prop) (l : list A) :
  Sorted (fun a b => R (f a) (f b)) l -> Sorted R (map f l).
Proof.
  induction 1 as [| x t Hs IH Hhd]; simpl; constructor; [exact IH |].
  destruct Hhd; simpl; constructor; assumption.
Qed.

(** X10: the timeline holds every segment and every time mark, each
    once, and nothing else. *)
Theorem timeline_complete (filtered_segments : list MergedSegment)
    (time_marks : list TimeMark) :
  Permutation (all_items filtered_segments time_marks)
    (map speech_item filtered_segments ++ map time_mark_item time_marks).
Proof. apply sort_by_permutation. Qed.

Lemma all_items_stable (filtered_segments : list MergedSegment)
    (time_marks : list TimeMark) :
  (Sorted (fun a b => start_ms a <= start_ms b) filtered_segments ->
   filter is_speech (all_items filtered_segments time_marks)
   = map speech_item filtered_segments) /\
  (Sorted (fun a b => mark_start_ms a <= mark_start_ms b) time_marks ->
   filter is_time_mark (all_items filtered_segments time_marks)
   = map time_mark_item time_marks).
Proof.
  assert (Hss : Forall (fun x => is_speech x = true)
                  (map speech_item filtered_segments))
    by (apply Forall_forall; intros x Hx; apply in_map_iff in Hx;
        destruct Hx as (y & <- & _); reflexivity).
  assert (Hsm : Forall (fun x => is_time_mark x = false)
                  (map speech_item filtered_segments))
    by (apply Forall_forall; intros x Hx; apply in_map_iff in Hx;
        destruct Hx as (y & <- & _); reflexivity).
  assert (Hms : Forall (fun x => is_speech x = false)
                  (map time_mark_item time_marks))
    by (apply Forall_forall; intros x Hx; apply in_map_iff in Hx;
        destruct Hx as (y & <- & _); reflexivity).
  assert (Hmm : Forall (fun x => is_time_mark x = true)
                  (map time_mark_item time_marks))
    by (apply Forall_forall; intros x Hx; apply in_map_iff in Hx;
        destruct Hx as (y & <- & _); reflexivity).
  unfold all_items. split; intros Hsorted; rewrite filter_sort_by, filter_app.
  - rewrite (filter_all _ _ Hss), (filter_none _ _ Hms), app_nil_r.
    apply sort_by_sorted_fixed. apply Sorted_map with (f := speech_item).
    exact Hsorted.
  - rewrite (filter_none _ _ Hsm), (filter_all _ _ Hmm). simpl.
    apply sort_by_sorted_fixed. apply Sorted_map with (f := time_mark_item).
    exact Hsorted.
Qed.

(** X11: the sort is stable, so segments that come sorted by start keep
    their order in the timeline, and so do time marks that come sorted:
    the speech items of the timeline are the segments in their order, its
    marks the time marks in theirs. *)
Theorem timeline_keeps_orders (filtered_segments : list MergedSegment)
    (time_marks : list TimeMark) :
  (Sorted (fun a b => start_ms a <= start_ms b) filtered_segments ->
   filter is_speech (all_items filtered_segments time_marks)
   = map speech_item filtered_segments) /\
  (Sorted (fun a b => mark_start_ms a <= mark_start_ms b) time_marks ->
   filter is_time_mark (all_items filtered_segments time_marks)
   = map time_mark_item time_marks).
Proof. intros; eapply all_items_stable; eassumption. Qed.

Lemma timeline_keeps_orders_witness :
  filter is_speech (all_items [scenario6_segment] [scenario6_mark])
  = [speech_item scenario6_segment] /\
  filter is_time_mark (all_items [scenario6_segment] [scenario6_mark])
  = [time_mark_item scenario6_mark].
Proof.
  destruct (timeline_keeps_orders [scenario6_segment] [scenario6_mark])
    as [Hs Hm].
  split; [apply Hs | apply Hm]; repeat constructor.
Defined.

(** ** Extras: the speaker identifier *)

Section IdentifierExtras.
Context {embedding : Type} (cosine : embedding -> embedding -> option Q).

(** X12: the identifier never returns a name that is not in the
    library: its result is [None], UNKNOWN, or the name of an entry whose
    similarity exceeds -1, reaches the threshold and is not exceeded by
    any computed similarity. *)
Theorem identify_speaker_in_library (segment_emb : embedding)
    (voiceprints : list (string * embedding)) (threshold : Q) :
  identify_speaker cosine segment_emb voiceprints threshold = None \/
  identify_speaker cosine segment_emb voiceprints threshold = Some UNKNOWN \/
  exists n e s,
    In (n, e) voiceprints /\
    similarity cosine segment_emb e = Some s /\
    (threshold <= s)%Q /\ (-1 < s)%Q /\
    (forall n' e' s', In (n', e') voiceprints ->
                      similarity cosine segment_emb e' = Some s' ->
                      (s' <= s)%Q) /\
    identify_speaker cosine segment_emb voiceprints threshold = Some n.
Proof.
  destruct (identify_loop cosine segment_emb voiceprints (None, (-1)%Q))
    as (Hmax & _ & Hbest).
  unfold identify_speaker.
  destruct voiceprints as [| entry rest]; [right; left; reflexivity |].
  set (l := entry :: rest) in *.
  set (st := fold_left (identify_step cosine segment_emb) l (None, (-1)%Q)) in *.
  destruct (Qle_bool threshold (snd st)) eqn:E; [| right; left; reflexivity].
  destruct Hbest as [Hst | (n & e & Hin & Hf & Hs & Hlt)].
  - left. rewrite Hst. reflexivity.
  - right. right. exists n, e, (snd st). apply Qle_bool_iff in E.
    repeat split; assumption.
Qed.

(** State after a prefix whose similarities stay below [s]. *)
Lemma identify_prefix_below (segment_emb : embedding)
    (l : list (string * embedding)) (s : Q) :
  (-1 < s)%Q ->
  (forall n' e' s', In (n', e') l ->
                    similarity cosine segment_emb e' = Some s' -> (s' < s)%Q) ->
  (snd (fold_left (identify_step cosine segment_emb) l (None, (-1)%Q)) < s)%Q.
Proof.
  intros Hs Hbelow.
  destruct (identify_loop cosine segment_emb l (None, (-1)%Q))
    as (_ & _ & Hbest).
  destruct Hbest as [-> | (n & e & Hin & _ & Hsim & _)]; [exact Hs |].
  eapply Hbelow; eassumption.
Qed.

Lemma identify_suffix_not_above (segment_emb : embedding)
    (l : list (string * embedding)) (n : string) (s : Q) :
  (forall n' e' s', In (n', e') l ->
                    similarity cosine segment_emb e' = Some s' -> (s' <= s)%Q) ->
  fold_left (identify_step cosine segment_emb) l (Some n, s) = (Some n, s).
Proof.
  intros Hle.
  destruct (identify_loop cosine segment_emb l (Some n, s))
    as (_ & _ & Hbest).
  destruct Hbest as [Hst | (n' & e' & Hin & _ & Hsim & Hlt)]; [exact Hst |].
  exfalso. simpl in Hlt.
  exact (Qlt_not_le _ _ Hlt (Hle _ _ _ Hin Hsim)).
Qed.

(** X13: ties go to the first entry in the order of the library: an
    entry whose similarity exceeds -1 and reaches the threshold is
    returned when every earlier entry is strictly below it and no later
    entry is above it. *)
Theorem identify_speaker_first_best (segment_emb : embedding)
    (before after : list (string * embedding)) (n : string) (e : embedding)
    (s threshold : Q) :
  similarity cosine segment_emb e = Some s ->
  (-1 < s)%Q -> (threshold <= s)%Q ->
  (forall n' e' s', In (n', e') before ->
                    similarity cosine segment_emb e' = Some s' -> (s' < s)%Q) ->
  (forall n' e' s', In (n', e') after ->
                    similarity cosine segment_emb e' = Some s' -> (s' <= s)%Q) ->
  identify_speaker cosine segment_emb (before ++ (n, e) :: after) threshold
  = Some n.
Proof.
  intros Hsim Hs Hthr Hbefore Hafter. unfold identify_speaker.
  destruct (before ++ (n, e) :: after) as [| x t] eqn:El.
  { destruct before; discriminate. }
  rewrite <- El. rewrite fold_left_app. simpl fold_left.
  pose proof (identify_prefix_below segment_emb before s Hs Hbefore) as Hlt.
  set (st := fold_left (identify_step cosine segment_emb) before
               (None, (-1)%Q)) in *.
  assert (Hstep : identify_step cosine segment_emb st (n, e) = (Some n, s)).
  { unfold identify_step. simpl. rewrite Hsim.
    apply Qlt_bool_iff in Hlt. rewrite Hlt. reflexivity. }
  rewrite Hstep, identify_suffix_not_above by exact Hafter.
  simpl. apply Qle_bool_iff in Hthr. rewrite Hthr. reflexivity.
Qed.
End IdentifierExtras.

Lemma identify_speaker_first_best_witness :
  identify_speaker cosine_1d 5 ([("Bob", -3)] ++ ("Alice", 2) :: [("Carol", 7)])
    DEFAULT_SIMILARITY_THRESHOLD = Some "Alice".
Proof.
  apply (identify_speaker_first_best cosine_1d 5 [("Bob", -3)] [("Carol", 7)]
           "Alice" 2 1%Q DEFAULT_SIMILARITY_THRESHOLD).
  - reflexivity.
  - reflexivity.
  - vm_compute. discriminate.
  - intros n' e' s' [[= <- <-] | []] [= <-]. reflexivity.
  - intros n' e' s' [[= <- <-] | []] [= <-]. vm_compute. discriminate.
Defined.

(** ** Extras: the voiceprint filter *)

Section DictFacts.
Context {V : Type}.

Lemma dict_get_set (d : list (string * V)) (k k' : string) (v : V) :
  dict_get (dict_set d k v) k'
  = if (k =? k')%string then Some v else dict_get d k'.
Proof.
  induction d as [| [k0 v0] t IH]; simpl.
  - reflexivity.
  - destruct (String.eqb_spec k0 k) as [-> | Hne]; simpl.
    + destruct (k =? k')%string; reflexivity.
    + rewrite IH. destruct (String.eqb_spec k0 k') as [-> | Hne'];
        [| reflexivity].
      destruct (String.eqb_spec k k'); [congruence | reflexivity].
Qed.

Lemma dict_set_keys (d : list (string * V)) (k : string) (v : V) :
  forall k', In k' (map fst (dict_set d k v)) <-> k' = k \/ In k' (map fst d).
Proof.
  induction d as [| [k0 v0] t IH]; intros k'; simpl.
  - intuition congruence.
  - destruct (String.eqb_spec k0 k) as [-> | Hne]; simpl.
    + intuition congruence.
    + rewrite IH. intuition congruence.
Qed.

Lemma dict_set_nodup (d : list (string * V)) (k : string) (v : V) :
  NoDup (map fst d) -> NoDup (map fst (dict_set d k v)).
Proof.
  induction d as [| [k0 v0] t IH]; simpl; intros Hnd.
  - constructor; [intros [] | constructor].
  - inversion Hnd as [| ? ? Hnotin Hnd']; subst.
    destruct (String.eqb_spec k0 k) as [-> | Hne]; simpl.
    + constructor; assumption.
    + constructor; [| apply IH, Hnd'].
      rewrite dict_set_keys. intros [E | Hin]; [congruence | contradiction].
Qed.
End DictFacts.

Section VoiceprintFacts.
Context {embedding : Type}.

Lemma fold_keep_candidate_get (voiceprints : list (string * embedding))
    (candidates : list string) : forall filtered k,
  dict_get (fold_left (keep_candidate voiceprints) candidates filtered) k
  = if existsb (String.eqb k) candidates
    then match dict_get voiceprints k with
         | Some v => Some v
         | None => dict_get filtered k
         end
    else dict_get filtered k.
Proof.
  induction candidates as [| c t IH]; intros filtered k; [reflexivity |].
  simpl. rewrite IH. unfold keep_candidate.
  destruct (String.eqb_spec k c) as [-> | Hne]; simpl.
  - destruct (dict_get voiceprints c) as [v |] eqn:Ev.
    + rewrite dict_get_set, String.eqb_refl.
      destruct (existsb (String.eqb c) t); reflexivity.
    + destruct (existsb (String.eqb c) t); reflexivity.
  - destruct (dict_get voiceprints c) as [v |] eqn:Ev; [| reflexivity].
    rewrite dict_get_set.
    destruct (String.eqb_spec c k); [congruence | reflexivity].
Qed.

Lemma fold_keep_candidate_nodup (voiceprints : list (string * embedding))
    (candidates : list string) : forall filtered,
  NoDup (map fst filtered) ->
  NoDup (map fst (fold_left (keep_candidate voiceprints) candidates filtered)).
Proof.
  induction candidates as [| c t IH]; intros filtered Hnd; [exact Hnd |].
  simpl. apply IH. unfold keep_candidate.
  destruct (dict_get voiceprints c); [apply dict_set_nodup |]; exact Hnd.
Qed.

Lemma filter_voiceprints_get (voiceprints : list (string * embedding))
    (candidates : list string) :
  candidates <> [] ->
  match dict_get voiceprints JUDGE with
  | None =>
      filter_voiceprints_by_candidates voiceprints candidates
      = Raises (KeyError JUDGE)
  | Some _ =>
      exists filtered,
        filter_voiceprints_by_candidates voiceprints candidates
        = Returns filtered /\
        NoDup (map fst filtered) /\
        forall k,
          dict_get filtered k
          = if (k =? JUDGE)%string || existsb (String.eqb k) candidates
            then dict_get voiceprints k
            else None
  end.
Proof.
  intros Hne. unfold filter_voiceprints_by_candidates.
  destruct candidates as [| c t]; [congruence |].
  destruct (dict_get voiceprints JUDGE) as [v |] eqn:Ej; [| reflexivity].
  eexists. split; [reflexivity |]. split.
  - apply dict_set_nodup, fold_keep_candidate_nodup. constructor.
  - intros k. rewrite dict_get_set, fold_keep_candidate_get.
    rewrite (String.eqb_sym k JUDGE).
    destruct (String.eqb_spec JUDGE k) as [<- | Hk].
    + rewrite orb_true_l. symmetry. exact Ej.
    + rewrite orb_false_l. destruct (existsb (String.eqb k) (c :: t)); [| reflexivity].
      destruct (dict_get voiceprints k); reflexivity.
Qed.

(** X14: for a non-empty roster the filter raises [KeyError] exactly
    when the library has no voiceprint of the judge; otherwise the
    filtered library has no duplicate names and holds, for the judge and
    for every roster member, the library's own voiceprint, and nothing
    for anyone else. *)
Theorem filter_voiceprints_lookup (voiceprints : list (string * embedding))
    (candidates : list string) :
  candidates <> [] ->
  match dict_get voiceprints JUDGE with
  | None =>
      filter_voiceprints_by_candidates voiceprints candidates
      = Raises (KeyError JUDGE)
  | Some _ =>
      exists filtered,
        filter_voiceprints_by_candidates voiceprints candidates
        = Returns filtered /\
        NoDup (map fst filtered) /\
        forall k,
          dict_get filtered k
          = if (k =? JUDGE)%string || existsb (String.eqb k) candidates
            then dict_get voiceprints k
            else None
  end.
Proof. intros; eapply filter_voiceprints_get; eassumption. Qed.
End VoiceprintFacts.

Lemma filter_voiceprints_lookup_witness :
  exists filtered,
    filter_voiceprints_by_candidates
      [("Zhang", 1); (JUDGE, 2); ("Wang", 3)] ["Zhang"; "Li"]
    = Returns filtered /\
    dict_get filtered "Wang" = None /\ dict_get filtered "Zhang" = Some 1.
Proof.
  destruct (filter_voiceprints_lookup
              [("Zhang", 1); (JUDGE, 2); ("Wang", 3)] ["Zhang"; "Li"])
    as (filtered & Hf & _ & Hget); [discriminate |].
  exists filtered. split; [exact Hf |].
  split; rewrite Hget; reflexivity.
Defined.

(** ** Extras: markers with a colon, and the shape of [minsec] *)

Lemma parse_digits_colon (s : string) (acc : Z) (b : bool) :
  has_colon s = true -> parse_digits acc b s = None.
Proof.
  intros Hc. destruct (parse_digits acc b s) as [n |] eqn:E; [| reflexivity].
  destruct (parse_digits_plain _ _ _ _ E) as [Hno _]. congruence.
Qed.

Lemma parse_optional_digits_colon (s : string) :
  has_colon s = true -> parse_optional_digits s = None.
Proof.
  intros Hc. destruct s as [| c t]; [discriminate |].
  apply parse_digits_colon, Hc.
Qed.

Lemma has_colon_split_point (s : string) :
  has_colon s
  = has_colon (fst (split_point s))
    || match snd (split_point s) with
       | Some frac => has_colon frac
       | None => false
       end.
Proof.
  induction s as [| c t IH]; [reflexivity |]. simpl.
  destruct (Ascii.eqb_spec c ".") as [-> | Hne]; [reflexivity |].
  destruct (split_point t) as [a b]. simpl in *.
  rewrite IH, orb_assoc. reflexivity.
Qed.

Lemma exponent_mark_not_colon (c : ascii) :
  is_exponent_mark c = true -> is_colon c = false.
Proof.
  destruct c as [[] [] [] [] [] [] [] []]; try discriminate; reflexivity.
Qed.

Lemma has_colon_split_exponent (s : string) :
  has_colon s
  = has_colon (fst (split_exponent s))
    || match snd (split_exponent s) with
       | Some e => has_colon e
       | None => false
       end.
Proof.
  induction s as [| c t IH]; [reflexivity |]. simpl.
  destruct (is_exponent_mark c) eqn:Ec.
  - rewrite (exponent_mark_not_colon c Ec). reflexivity.
  - destruct (split_exponent t) as [a b]. simpl in *.
    rewrite IH, orb_assoc. reflexivity.
Qed.

Lemma is_colon_lower_char (c : ascii) : is_colon (lower_char c) = is_colon c.
Proof. destruct c as [[] [] [] [] [] [] [] []]; reflexivity. Qed.

Lemma has_colon_lower (s : string) : has_colon (lower s) = has_colon s.
Proof.
  induction s as [| c t IH]; [reflexivity |]. simpl.
  rewrite is_colon_lower_char, IH. reflexivity.
Qed.

(** A string with a colon is none of the words [float] reads. *)
Lemma colon_no_word (s : string) :
  has_colon s = true ->
  ((lower s =? "inf") || (lower s =? "infinity"))%string = false /\
  (lower s =? "nan")%string = false.
Proof.
  intros Hc. rewrite <- has_colon_lower in Hc.
  assert (H : forall w, has_colon w = false -> (lower s =? w)%string = false).
  { intros w Hw. destruct (String.eqb_spec (lower s) w) as [E |]; [| reflexivity].
    rewrite E in Hc. congruence. }
  rewrite !H by reflexivity. split; reflexivity.
Qed.

Lemma parse_mantissa_colon (s : string) :
  has_colon s = true -> parse_mantissa s = None.
Proof.
  intros Hc. unfold parse_mantissa.
  rewrite has_colon_split_point in Hc.
  destruct (split_point s) as [whole [frac |]]; simpl in Hc.
  - apply orb_true_iff in Hc. destruct Hc as [Hw | Hf].
    + rewrite (parse_optional_digits_colon whole Hw).
      destruct whole, frac; reflexivity.
    + rewrite (parse_optional_digits_colon frac Hf).
      destruct whole, frac; try reflexivity;
        destruct (parse_optional_digits _); reflexivity.
  - rewrite orb_false_r in Hc. rewrite parse_digits_colon by exact Hc.
    reflexivity.
Qed.

Lemma parse_exponent_colon (e : string) :
  has_colon e = true -> parse_exponent (Some e) = None.
Proof.
  intros Hc. unfold parse_exponent.
  rewrite <- split_sign_colon in Hc.
  destruct (split_sign e) as [sign digits]. simpl in Hc.
  rewrite parse_digits_colon by exact Hc. reflexivity.
Qed.

Lemma py_float_colon (t : string) :
  has_colon t = true -> py_float t = None.
Proof.
  intros Hc. unfold py_float.
  rewrite <- has_colon_strip, <- split_sign_colon in Hc.
  destruct (split_sign (strip t)) as [sign body]. simpl in Hc.
  destruct (colon_no_word body Hc) as [Hw1 Hw2]. rewrite Hw1, Hw2.
  rewrite has_colon_split_exponent in Hc.
  destruct (split_exponent body) as [mantissa exponent]. simpl in Hc.
  apply orb_true_iff in Hc. destruct Hc as [Hm | He].
  - rewrite (parse_mantissa_colon mantissa Hm). reflexivity.
  - destruct exponent as [e |]; [| discriminate].
    rewrite (parse_exponent_colon e He).
    destruct (parse_mantissa mantissa) as [[m places] |]; reflexivity.
Qed.

(** A marker with a colon is left to the clock formats: [float] raises
    [ValueError] on it, so the parser neither divides nor converts, and
    raises nothing. *)
Lemma parse_colon_marker (t : string) (fps : float) :
  has_colon t = true ->
  parse_time_to_ms t fps = Returns (parse_clock (strip t)).
Proof.
  intros Hc. unfold parse_time_to_ms.
  rewrite py_float_colon by (rewrite has_colon_strip; exact Hc).
  destruct (parse_clock (strip t)); reflexivity.
Qed.

Lemma parse_clock_parts (t : string) (ms : Z) :
  parse_clock t = Some ms ->
  (exists a b m s,
      split_colon t = [a; b] /\
      py_int a = Some m /\ py_int b = Some s /\
      ms = (m * 60 + s) * 1000) \/
  (exists a b c h m s,
      split_colon t = [a; b; c] /\
      py_int a = Some h /\ py_int b = Some m /\ py_int c = Some s /\
      ms = (h * 3600 + m * 60 + s) * 1000).
Proof.
  unfold parse_clock. destruct (has_colon t); [| discriminate].
  destruct (split_colon t) as [| a [| b [| c [| d rest]]]];
    try discriminate.
  - destruct (py_int a) as [m |] eqn:Ea; [| discriminate].
    destruct (py_int b) as [s |] eqn:Eb; [| discriminate].
    intros [= <-]. left. exists a, b, m, s. repeat split; assumption.
  - destruct (py_int a) as [h |] eqn:Ea; [| discriminate].
    destruct (py_int b) as [m |] eqn:Eb; [| discriminate].
    destruct (py_int c) as [s |] eqn:Ec; [| discriminate].
    intros [= <-]. right. exists a, b, c, h, m, s. repeat split; assumption.
Qed.



Lemma colon_marker_rejected :
  forall t fps,
    has_colon t = true ->
    (forall a b, split_colon (strip t) = [a; b] ->
                 py_int a = None \/ py_int b = None) ->
    (forall a b c, split_colon (strip t) = [a; b; c] ->
                   py_int a = None \/ py_int b = None \/ py_int c = None) ->
    parse_time_to_ms t fps = Returns None.
Proof.
  intros t fps Hc H2 H3. rewrite (parse_colon_marker t fps Hc).
  destruct (parse_clock (strip t)) as [ms |] eqn:E; [| reflexivity].
  destruct (parse_clock_parts _ _ E)
    as [(a & b & m & s & Hs & Ha & Hb & _)
       | (a & b & c & h & m & s & Hs & Ha & Hb & Hcc & _)].
  - destruct (H2 a b Hs); congruence.
  - destruct (H3 a b c Hs) as [? | [? | ?]]; congruence.
Qed.

Lemma fmt_02d_two_chars (z : Z) :
  0 <= z < 100 -> String.length (fmt_02d z) = 2%nat.
Proof.
  intros Hz.
  assert (Hall : forallb (fun n => Nat.eqb (String.length (fmt_02d (Z.of_nat n))) 2)
                   (seq 0 100) = true) by (vm_compute; reflexivity).
  rewrite forallb_forall in Hall.
  specialize (Hall (Z.to_nat z)).
  rewrite Z2Nat.id in Hall by lia.
  apply Nat.eqb_eq, Hall. apply in_seq. lia.
Qed.

Lemma length_append (a b : string) :
  String.length (a ++ b) = (String.length a + String.length b)%nat.
Proof. induction a as [| c t IH]; simpl; [| rewrite IH]; reflexivity. Qed.

Lemma get_append_at (a : string) (c : ascii) (b : string) :
  String.get (String.length a) (a ++ String c b) = Some c.
Proof. induction a as [| x t IH]; simpl; [reflexivity | exact IH]. Qed.

(** X16: a time below one hundred minutes is written in five
    characters, two for the minutes and two for the seconds around a
    colon. *)
Theorem minsec_shape (ms : Z) :
  0 <= ms < 6000000 ->
  String.length (minsec ms) = 5%nat /\ String.get 2 (minsec ms) = Some ":"%char.
Proof.
  intros Hms. unfold minsec. cbv zeta.
  assert (Hmm : String.length (fmt_02d (ms / 1000 / 60)) = 2%nat).
  { apply fmt_02d_two_chars.
    assert (0 <= ms / 1000 < 6000)
      by (split; [apply Z.div_pos; lia | apply Z.div_lt_upper_bound; lia]).
    split; [apply Z.div_pos; lia | apply Z.div_lt_upper_bound; lia]. }
  assert (Hss : String.length (fmt_02d ((ms / 1000) mod 60)) = 2%nat).
  { apply fmt_02d_two_chars. pose proof (Z.mod_pos_bound (ms / 1000) 60). lia. }
  split.
  - rewrite !length_append, Hmm, Hss. reflexivity.
  - rewrite <- Hmm. apply get_append_at.
Qed.

Lemma minsec_shape_witness :
  String.length (minsec 90000) = 5%nat /\
  String.get 2 (minsec 90000) = Some ":"%char.
Proof. apply minsec_shape. lia. Defined.

(** ** Extras: the configuration *)

Lemma existsb_eqb_in (x : string) (s : list string) :
  existsb (String.eqb x) s = true <-> In x s.
Proof.
  rewrite existsb_exists. split.
  - intros (y & Hy & E). apply String.eqb_eq in E. subst. exact Hy.
  - intros Hx. exists x. split; [exact Hx | apply String.eqb_refl].
Qed.

Lemma set_add_in (x : string) (s : list string) (c : string) :
  In c (set_add x s) <-> c = x \/ In c s.
Proof.
  unfold set_add. destruct (existsb (String.eqb x) s) eqn:E.
  - apply existsb_eqb_in in E. split; [tauto |].
    intros [-> | Hc]; assumption.
  - rewrite in_app_iff. simpl. intuition congruence.
Qed.

Lemma set_add_nodup (x : string) (s : list string) :
  NoDup s -> NoDup (set_add x s).
Proof.
  intros Hs. unfold set_add. destruct (existsb (String.eqb x) s) eqn:E;
    [exact Hs |].
  assert (Hx : ~ In x s).
  { intros Hin. apply existsb_eqb_in in Hin. congruence. }
  apply NoDup_rev in Hs. rewrite <- (rev_involutive (s ++ [x])).
  apply NoDup_rev. rewrite rev_app_distr. simpl.
  constructor; [rewrite <- in_rev; exact Hx | exact Hs].
Qed.

Lemma add_participant_candidates (st : Roster) (p : Participant) (c : string) :
  In c (roster_candidates (add_participant st p)) <->
  In c (roster_candidates st) \/
  (participant_name p = Some c /\ truthy c = true).
Proof.
  unfold add_participant. destruct (participant_name p) as [name |].
  - destruct (truthy name) eqn:Et; simpl.
    + rewrite set_add_in. split.
      * intros [-> | Hc]; [right; split; [reflexivity | exact Et] | left; exact Hc].
      * intros [Hc | [[= ->] _]]; [right; exact Hc | left; reflexivity].
    + split; [tauto |]. intros [Hc | [[= ->] Ht]]; [exact Hc | congruence].
  - split; [tauto |]. intros [Hc | [Hn _]]; [exact Hc | discriminate].
Qed.

Lemma add_participant_nodup (st : Roster) (p : Participant) :
  NoDup (roster_candidates st) ->
  NoDup (roster_candidates (add_participant st p)).
Proof.
  intros Hs. unfold add_participant.
  destruct (participant_name p) as [name |]; [| exact Hs].
  destruct (truthy name); [apply set_add_nodup |]; exact Hs.
Qed.

Lemma fold_participants_candidates (ps : list Participant) : forall st c,
  In c (roster_candidates (fold_left add_participant ps st)) <->
  In c (roster_candidates st) \/
  exists p, In p ps /\ participant_name p = Some c /\ truthy c = true.
Proof.
  induction ps as [| p t IH]; intros st c; simpl.
  - split; [tauto | intros [Hc | (p & [] & _)]; exact Hc].
  - rewrite IH, add_participant_candidates. split.
    + intros [[Hc | Hp] | (q & Hq & Hn)].
      * left. exact Hc.
      * right. exists p. split; [left; reflexivity | exact Hp].
      * right. exists q. split; [right; exact Hq | exact Hn].
    + intros [Hc | (q & [<- | Hq] & Hn)].
      * left. left. exact Hc.
      * left. right. exact Hn.
      * right. exists q. split; assumption.
Qed.

Lemma fold_participants_nodup (ps : list Participant) : forall st,
  NoDup (roster_candidates st) ->
  NoDup (roster_candidates (fold_left add_participant ps st)).
Proof.
  induction ps as [| p t IH]; intros st Hs; simpl; [exact Hs |].
  apply IH, add_participant_nodup, Hs.
Qed.

Lemma add_judge_candidates (st : Roster) (c : string) :
  In c (roster_candidates (add_judge st)) <->
  c = JUDGE \/ In c (roster_candidates st).
Proof.
  unfold add_judge.
  destruct (existsb (String.eqb JUDGE) (roster_candidates st)) eqn:E.
  - apply existsb_eqb_in in E. split; [tauto |].
    intros [-> | Hc]; assumption.
  - simpl. apply set_add_in.
Qed.

Lemma add_judge_nodup (st : Roster) :
  NoDup (roster_candidates st) -> NoDup (roster_candidates (add_judge st)).
Proof.
  intros Hs. unfold add_judge.
  destruct (existsb (String.eqb JUDGE) (roster_candidates st));
    [exact Hs | simpl; apply set_add_nodup, Hs].
Qed.

Lemma insert_string_permutation (x : string) (l : list string) :
  Permutation (insert_string x l) (x :: l).
Proof.
  induction l as [| y t IH]; simpl; [apply Permutation_refl |].
  destruct (x <=? y)%string; [apply Permutation_refl |].
  eapply Permutation_trans; [apply perm_skip, IH | apply perm_swap].
Qed.

Lemma sorted_strings_permutation (l : list string) :
  Permutation (sorted_strings l) l.
Proof.
  induction l as [| x t IH]; simpl; [apply perm_nil |].
  eapply Permutation_trans; [apply insert_string_permutation |].
  apply perm_skip, IH.
Qed.

Lemma insert_string_sorted (x : string) (l : list string) :
  Sorted (fun a b => (a <=? b)%string = true) l ->
  Sorted (fun a b => (a <=? b)%string = true) (insert_string x l).
Proof.
  induction l as [| y t IH]; intros Hs; simpl.
  - repeat constructor.
  - destruct (x <=? y)%string eqn:E.
    + constructor; [exact Hs | constructor; exact E].
    + assert (Hyx : (y <=? x)%string = true)
        by (destruct (String.leb_total x y); congruence).
      inversion Hs as [| ? ? Hst Hhd]; subst.
      constructor; [apply IH, Hst |].
      destruct t as [| z t']; simpl.
      * constructor. exact Hyx.
      * destruct (x <=? z)%string; constructor; [exact Hyx |].
        inversion Hhd; subst. assumption.
Qed.

Lemma sorted_strings_sorted (l : list string) :
  Sorted (fun a b => (a <=? b)%string = true) (sorted_strings l).
Proof.
  induction l as [| x t IH]; simpl;
    [constructor | apply insert_string_sorted, IH].
Qed.

Lemma leb_neq_ltb (a b : string) :
  (a <=? b)%string = true -> a <> b -> (a <? b)%string = true.
Proof.
  unfold String.leb, String.ltb. intros Hle Hne.
  destruct (String.compare a b) eqn:E; try reflexivity; try discriminate.
  apply String.compare_eq_iff in E. contradiction.
Qed.

Lemma sorted_nodup_strict (l : list string) :
  Sorted (fun a b => (a <=? b)%string = true) l -> NoDup l ->
  Sorted (fun a b => (a <? b)%string = true) l.
Proof.
  induction 1 as [| x t Hs IH Hhd]; intros Hnd; [constructor |].
  inversion Hnd as [| ? ? Hx Ht]; subst.
  constructor; [apply IH, Ht |].
  destruct Hhd as [| y t' Hxy]; constructor.
  apply leb_neq_ltb; [exact Hxy |].
  intros ->. apply Hx. left. reflexivity.
Qed.

(** What [parse_config_file] returns, field by field. *)
Lemma parse_config_file_returns (config : RawConfig) (cfg : Config) :
  parse_config_file config = Returns cfg ->
  speaker_roles cfg = roster_roles (parse_roster config) /\
  speaker_seqs cfg = roster_seqs (parse_roster config) /\
  candidates cfg = sorted_strings (roster_candidates (parse_roster config)) /\
  exists marks,
    collect_time_marks (raw_time_marks config) [] = Returns marks /\
    time_marks cfg = sort_by mark_start_ms marks.
Proof.
  unfold parse_config_file.
  destruct (collect_time_marks (raw_time_marks config) []) as [marks | e];
    [| discriminate].
  intros [= <-]. simpl. repeat split. exists marks. split; reflexivity.
Qed.

Lemma parsed_candidates (config : RawConfig) (cfg : Config) :
  parse_config_file config = Returns cfg ->
  Sorted (fun a b => (a <? b)%string = true) (candidates cfg) /\
  forall c,
    In c (candidates cfg) <->
    c = JUDGE \/
    exists p, In p (raw_participants config) /\
              participant_name p = Some c /\ c <> "".
Proof.
  intros Hcfg.
  destruct (parse_config_file_returns config cfg Hcfg) as (_ & _ & -> & _).
  unfold parse_roster.
  set (st := fold_left add_participant (raw_participants config) _).
  assert (Hnd : NoDup (roster_candidates (add_judge st))).
  { apply add_judge_nodup, fold_participants_nodup. constructor. }
  split.
  - apply sorted_nodup_strict; [apply sorted_strings_sorted |].
    eapply Permutation_NoDup; [| exact Hnd].
    apply Permutation_sym, sorted_strings_permutation.
  - intros c.
    assert (Hperm : In c (sorted_strings (roster_candidates (add_judge st)))
                    <-> In c (roster_candidates (add_judge st))).
    { split; apply Permutation_in;
        [| apply Permutation_sym]; apply sorted_strings_permutation. }
    rewrite Hperm, add_judge_candidates. unfold st.
    rewrite fold_participants_candidates. simpl.
    split.
    + intros [-> | [[] | (p & Hp & Hn & Ht)]]; [left; reflexivity |].
      right. exists p. repeat split; try assumption.
      intros ->. discriminate.
    + intros [-> | (p & Hp & Hn & Hne)]; [left; reflexivity |].
      right. right. exists p. repeat split; try assumption.
      unfold truthy. apply negb_true_iff, String.eqb_neq, Hne.
Qed.

(** X17: the candidates of a parsed configuration are in strictly
    ascending order, hence without duplicates, and they are the judge and
    the non-empty names of the participants, no one else. *)
Theorem config_candidates (config : RawConfig) (cfg : Config) :
  parse_config_file config = Returns cfg ->
  Sorted (fun a b => (a <? b)%string = true) (candidates cfg) /\
  forall c,
    In c (candidates cfg) <->
    c = JUDGE \/
    exists p, In p (raw_participants config) /\
              participant_name p = Some c /\ c <> "".
Proof. intros; eapply parsed_candidates; eassumption. Qed.

Lemma config_candidates_witness :
  parse_config_file sample_config = Returns sample_parsed /\
  Sorted (fun a b => (a <? b)%string = true) ["Li"; "Zhang"; JUDGE].
Proof.
  assert (Hp : parse_config_file sample_config = Returns sample_parsed)
    by (vm_compute; reflexivity).
  split; [exact Hp |].
  exact (proj1 (config_candidates sample_config sample_parsed Hp)).
Defined.










(** An infinite frame count stops the parser of the configuration. *)
Example infinite_mark_raises :
  parse_config_file infinite_mark_config = Raises OverflowError /\
  entry_raises (mkMarkEntry (Some "inf") (Some "end")) OverflowError.
Proof.
  split; [vm_compute; reflexivity |].
  exists "inf", "end". repeat split; try discriminate.
Qed.

Lemma dict_get_keys {V : Type} (d : list (string * V)) (k : string) :
  dict_get d k <> None <-> In k (map fst d).
Proof.
  induction d as [| [k0 v0] t IH]; simpl.
  - split; [congruence | tauto].
  - destruct (String.eqb_spec k0 k) as [-> | Hne].
    + split; [left; reflexivity | discriminate].
    + rewrite IH. split; [right; assumption | intros [E | H]; [congruence | exact H]].
Qed.

Lemma add_participant_keys (st : Roster) (p : Participant) :
  roster_keys_ok st -> roster_keys_ok (add_participant st p).
Proof.
  intros Hok. unfold add_participant.
  destruct (participant_name p) as [name |]; [| exact Hok].
  destruct (truthy name); [| exact Hok].
  intros c. destruct (Hok c) as [Hr Hs]. simpl.
  rewrite !dict_set_keys, set_add_in, Hr, Hs. tauto.
Qed.

Lemma fold_participants_keys (ps : list Participant) : forall st,
  roster_keys_ok st -> roster_keys_ok (fold_left add_participant ps st).
Proof.
  induction ps as [| p t IH]; intros st Hok; simpl; [exact Hok |].
  apply IH, add_participant_keys, Hok.
Qed.

Lemma add_judge_keys (st : Roster) :
  roster_keys_ok st -> roster_keys_ok (add_judge st).
Proof.
  intros Hok. unfold add_judge.
  destruct (existsb (String.eqb JUDGE) (roster_candidates st)); [exact Hok |].
  intros c. destruct (Hok c) as [Hr Hs]. simpl.
  rewrite !dict_set_keys, set_add_in, Hr, Hs. tauto.
Qed.

(** X19: the role dictionary and the seat dictionary of a parsed
    configuration have exactly the candidates as keys; when no participant
    carries the judge's name, the judge has the judge's role and no
    seat. *)
Theorem config_roles_and_seats (config : RawConfig) (cfg : Config) :
  parse_config_file config = Returns cfg ->
  (forall c,
      In c (candidates cfg) <-> dict_get (speaker_roles cfg) c <> None) /\
  (forall c,
      In c (candidates cfg) <-> dict_get (speaker_seqs cfg) c <> None) /\
  ((forall p, In p (raw_participants config) ->
              participant_name p <> Some JUDGE) ->
   dict_get (speaker_roles cfg) JUDGE = Some JUDGE /\
   dict_get (speaker_seqs cfg) JUDGE = Some NO_SEAT).
Proof.
  intros Hcfg.
  destruct (parse_config_file_returns config cfg Hcfg)
    as (-> & -> & -> & _).
  unfold parse_roster.
  set (st := fold_left add_participant (raw_participants config) _).
  assert (Hok : roster_keys_ok (add_judge st)).
  { apply add_judge_keys, fold_participants_keys.
    intros c. simpl. tauto. }
  assert (Hperm : forall c,
             In c (sorted_strings (roster_candidates (add_judge st)))
             <-> In c (roster_candidates (add_judge st))).
  { intros c. split; apply Permutation_in;
      [| apply Permutation_sym]; apply sorted_strings_permutation. }
  split; [| split].
  - intros c. rewrite Hperm, dict_get_keys. symmetry. apply Hok.
  - intros c. rewrite Hperm, dict_get_keys. symmetry. apply Hok.
  - intros Hnone. unfold add_judge.
    assert (E : existsb (String.eqb JUDGE) (roster_candidates st) = false).
    { destruct (existsb (String.eqb JUDGE) (roster_candidates st)) eqn:E;
        [| reflexivity].
      apply existsb_eqb_in in E. unfold st in E.
      apply fold_participants_candidates in E. simpl in E.
      destruct E as [[] | (p & Hp & Hn & _)].
      exfalso. exact (Hnone p Hp Hn). }
    rewrite E. simpl. rewrite !dict_get_set, String.eqb_refl.
    split; reflexivity.
Qed.

Lemma parsed_config_selection {embedding : Type}
    (config : RawConfig) (cfg : Config)
    (all_voiceprints : list (string * embedding)) :
  parse_config_file config = Returns cfg ->
  all_voiceprints <> [] ->
  match dict_get all_voiceprints JUDGE with
  | None =>
      select_voiceprints all_voiceprints (candidates cfg)
      = Raises (KeyError JUDGE)
  | Some _ =>
      exists voiceprints,
        select_voiceprints all_voiceprints (candidates cfg)
        = Returns voiceprints /\
        forall k,
          dict_get voiceprints k
          = if existsb (String.eqb k) (candidates cfg)
            then dict_get all_voiceprints k
            else None
  end.
Proof.
  intros Hcfg Hall.
  assert (Hj : In JUDGE (candidates cfg))
    by (apply (parsed_candidates config cfg Hcfg); left; reflexivity).
  assert (Hne : candidates cfg <> [])
    by (intros E; rewrite E in Hj; destruct Hj).
  pose proof (filter_voiceprints_get all_voiceprints
                (candidates cfg) Hne) as Hf.
  unfold select_voiceprints.
  destruct all_voiceprints as [| entry rest]; [congruence |].
  destruct (dict_get (entry :: rest) JUDGE) as [v |] eqn:Ej.
  - destruct Hf as (filtered & -> & _ & Hget).
    exists filtered. split.
    + destruct filtered as [| x t]; [| reflexivity].
      specialize (Hget JUDGE).
      rewrite String.eqb_refl, orb_true_l, Ej in Hget. discriminate.
    + intros k. rewrite Hget.
      destruct (String.eqb_spec k JUDGE) as [-> | _]; [| reflexivity].
      apply existsb_eqb_in in Hj. rewrite Hj. reflexivity.
  - rewrite Hf. reflexivity.
Qed.

(** X20: with the roster of a parsed configuration and a non-empty
    library, the selection of voiceprints raises [KeyError] when the
    library has no voiceprint of the judge, and otherwise is the library
    restricted to the candidates: a name has the library's voiceprint when
    it is a candidate and none when it is not. *)
Theorem config_voiceprints {embedding : Type}
    (config : RawConfig) (cfg : Config)
    (all_voiceprints : list (string * embedding)) :
  parse_config_file config = Returns cfg ->
  all_voiceprints <> [] ->
  match dict_get all_voiceprints JUDGE with
  | None =>
      select_voiceprints all_voiceprints (candidates cfg)
      = Raises (KeyError JUDGE)
  | Some _ =>
      exists voiceprints,
        select_voiceprints all_voiceprints (candidates cfg)
        = Returns voiceprints /\
        forall k,
          dict_get voiceprints k
          = if existsb (String.eqb k) (candidates cfg)
            then dict_get all_voiceprints k
            else None
  end.
Proof. intros; eapply parsed_config_selection; eassumption. Qed.

Lemma config_roles_and_seats_witness :
  parse_config_file sample_config = Returns sample_parsed /\
  dict_get (speaker_roles sample_parsed) JUDGE = Some JUDGE /\
  dict_get (speaker_seqs sample_parsed) JUDGE = Some NO_SEAT.
Proof.
  assert (Hp : parse_config_file sample_config = Returns sample_parsed)
    by (vm_compute; reflexivity).
  split; [exact Hp |].
  destruct (config_roles_and_seats sample_config sample_parsed Hp)
    as (_ & _ & Hjudge).
  apply Hjudge.
  intros p [<- | [<- | []]]; discriminate.
Defined.

Lemma config_voiceprints_witness :
  parse_config_file sample_config = Returns sample_parsed /\
  exists voiceprints,
    select_voiceprints [("Zhang", 1); (JUDGE, 2); ("Wang", 3)]
      (candidates sample_parsed)
    = Returns voiceprints /\
    dict_get voiceprints "Zhang" = Some 1 /\
    dict_get voiceprints "Wang" = None.
Proof.
  assert (Hp : parse_config_file sample_config = Returns sample_parsed)
    by (vm_compute; reflexivity).
  split; [exact Hp |].
  destruct (config_voiceprints sample_config sample_parsed
              [("Zhang", 1); (JUDGE, 2); ("Wang", 3)] Hp)
    as (voiceprints & Hsel & Hget); [discriminate |].
  exists voiceprints. split; [exact Hsel |].
  split; rewrite Hget; reflexivity.
Defined.

Example sample_config_parsed :
  parse_config_file sample_config = Returns sample_parsed.
Proof. vm_compute. reflexivity. Qed.

(** ** Extras: a whole run *)

Lemma dict_get_of_entry {V : Type} (d : list (string * V)) (k : string) (v : V) :
  In (k, v) d -> dict_get d k <> None.
Proof.
  intros Hin. apply dict_get_keys. apply in_map_iff.
  exists (k, v). split; [reflexivity | exact Hin].
Qed.

(** X21: in a run whose voiceprints were selected for a parsed
    configuration and whose threshold is above -1, every segment, with or
    without embedding, is given a speaker, and that speaker is UNKNOWN or
    a candidate of the configuration. *)
Theorem run_speakers_are_candidates {embedding : Type}
    (cosine : embedding -> embedding -> option Q)
    (config : RawConfig) (cfg : Config)
    (all_voiceprints voiceprints : list (string * embedding))
    (embedding_ : option embedding) (similarity_threshold : Q) :
  parse_config_file config = Returns cfg ->
  select_voiceprints all_voiceprints (candidates cfg) = Returns voiceprints ->
  (-1 < similarity_threshold)%Q ->
  exists s,
    segment_speaker cosine embedding_ voiceprints similarity_threshold = Some s /\
    (s = UNKNOWN \/ In s (candidates cfg)).
Proof.
  intros Hparsed Hsel Hthr.
  destruct embedding_ as [e |]; [| exists UNKNOWN; split; [reflexivity | left; reflexivity]].
  simpl segment_speaker.
  assert (Hall : all_voiceprints <> []).
  { intros ->. discriminate. }
  pose proof (parsed_config_selection config cfg all_voiceprints Hparsed Hall)
    as Hcfg.
  destruct (dict_get all_voiceprints JUDGE) as [v |];
    [| rewrite Hcfg in Hsel; discriminate].
  destruct Hcfg as (vps & Hsel' & Hget).
  rewrite Hsel' in Hsel. injection Hsel as ->.
  destruct voiceprints as [| entry rest] eqn:Ev.
  { exists UNKNOWN. split; [reflexivity | left; reflexivity]. }
  rewrite <- Ev in *.
  assert (Hne : voiceprints <> []) by (rewrite Ev; discriminate).
  destruct (identify_speaker_above_sentinel cosine e voiceprints
              similarity_threshold Hne Hthr)
    as [(n & e' & s & Hin & _ & _ & _ & Hid) | [_ Hid]].
  - exists n. split; [exact Hid |]. right.
    apply dict_get_of_entry in Hin. rewrite Hget in Hin.
    destruct (existsb (String.eqb n) (candidates cfg))
      eqn:E; [| congruence].
    apply existsb_eqb_in, E.
  - exists UNKNOWN. split; [exact Hid | left; reflexivity].
Qed.





Lemma run_speakers_are_candidates_witness :
  parse_config_file sample_config = Returns sample_parsed /\
  exists s,
    segment_speaker cosine_1d (Some 5) [("Zhang", 1); (JUDGE, 2)]
      DEFAULT_SIMILARITY_THRESHOLD = Some s /\
    (s = UNKNOWN \/ In s (candidates sample_parsed)).
Proof.
  assert (Hp : parse_config_file sample_config = Returns sample_parsed)
    by (vm_compute; reflexivity).
  split; [exact Hp |].
  apply (run_speakers_are_candidates cosine_1d sample_config sample_parsed
           [("Zhang", 1); (JUDGE, 2); ("Wang", 3)]).
  - exact Hp.
  - reflexivity.
  - reflexivity.
Defined.

